(** * Mini-Search-Engine: crawler, indexer and searcher

    A shallow embedding of [crawler.py], [indexer.py] and [searcher.py],
    and the properties of the three stages that the design document
    states: frontier and robots.txt handling of the crawl loop, the text
    normalisation shared by indexing and querying, the construction and
    the JSON snapshot of the inverted index, and boolean-AND retrieval.

    Python values are modelled as follows.
    - [str]: a [string]; characters are the code points below 256.
    - [int]: [Z].
    - [dict]: an association list in insertion order without duplicate
      keys ([Py.Dict]); [set]: a [gset].
    - the SQLite table [pages]: the list of its rows in rowid order.
    - the network (robots.txt, HTTP GET, HTML parsing): an environment of
      functions of the loop iteration, so that an answer may change
      between two requests for the same URL. *)

From Stdlib Require Import ZArith NArith List Ascii String Bool Lia.
From Stdlib Require Import Decimal DecimalString DecimalZ DecimalPos DecimalFacts.
From stdpp Require Import base decidable option list gmap strings.

Local Open Scope Z_scope.

(* ===================================================================== *)
(** * The Python operations the program uses *)
(* ===================================================================== *)

Module Py.

(** ** Characters and strings *)

(** [str.isspace], which is also the class [\s] of [re] on [str]
    patterns and the separator of [str.split()], on code points < 256. *)
Definition isspace (c : ascii) : bool :=
  let n := N_of_ascii c in
  ((9 <=? n) && (n <=? 13) || (28 <=? n) && (n <=? 32)
   || (n =? 133) || (n =? 160))%N.

Definition is_lower_az (c : ascii) : bool :=
  let n := N_of_ascii c in ((97 <=? n) && (n <=? 122))%N.

Definition is_upper_az (c : ascii) : bool :=
  let n := N_of_ascii c in ((65 <=? n) && (n <=? 90))%N.

Definition is_digit (c : ascii) : bool :=
  let n := N_of_ascii c in ((48 <=? n) && (n <=? 57))%N.

(** [str.lower] on one code point < 256: A-Z, and the Latin-1 capitals
    192..222 except the multiplication sign 215. *)
Definition lower_char (c : ascii) : ascii :=
  let n := N_of_ascii c in
  if (is_upper_az c || (192 <=? n) && (n <=? 222) && negb (n =? 215))%N
  then ascii_of_N (n + 32) else c.

Fixpoint str_map (f : ascii -> ascii) (s : string) : string :=
  match s with
  | EmptyString => EmptyString
  | String c s' => String (f c) (str_map f s')
  end.

Fixpoint str_filter (p : ascii -> bool) (s : string) : string :=
  match s with
  | EmptyString => EmptyString
  | String c s' => if p c then String c (str_filter p s') else str_filter p s'
  end.

Fixpoint str_forall (p : ascii -> bool) (s : string) : bool :=
  match s with
  | EmptyString => true
  | String c s' => p c && str_forall p s'
  end.

(** [s.lower()] *)
Definition lower (s : string) : string := str_map lower_char s.

(** [re.sub(r'[^a-z0-9\s]', '', s)]: every character outside the class
    is deleted. *)
Definition keep_char (c : ascii) : bool :=
  is_lower_az c || is_digit c || isspace c.

Definition re_sub_non_alnum_space (s : string) : string :=
  str_filter keep_char s.

(** [s.split()]: the maximal runs of non-space characters, in order.
    [cur] is the run being read. *)
Definition emit (cur : string) : list string :=
  match cur with EmptyString => [] | _ => [cur] end.

Fixpoint split_go (cur : string) (s : string) : list string :=
  match s with
  | EmptyString => emit cur
  | String c s' =>
      if isspace c then emit cur ++ split_go EmptyString s'
      else split_go (cur +:+ String c EmptyString) s'
  end.

Definition split (s : string) : list string := split_go EmptyString s.

(** [s.startswith(p)] *)
Definition startswith (s p : string) : bool := String.prefix p s.

(** [s[:n]] for [n >= 0] *)
Fixpoint slice_to (n : nat) (s : string) : string :=
  match n, s with
  | O, _ => EmptyString
  | _, EmptyString => EmptyString
  | S n', String c s' => String c (slice_to n' s')
  end.

Fixpoint lstrip (s : string) : string :=
  match s with
  | EmptyString => EmptyString
  | String c s' => if isspace c then lstrip s' else s
  end.

(** [s.rstrip()]: a character stays when it is no space or when
    something stays after it. *)
Fixpoint rstrip (s : string) : string :=
  match s with
  | EmptyString => EmptyString
  | String c s' =>
      match rstrip s' with
      | EmptyString => if isspace c then EmptyString else String c EmptyString
      | r => String c r
      end
  end.

(** [s.strip()] *)
Definition strip (s : string) : string := rstrip (lstrip s).

(** ** Dictionaries

    A [dict] keeps its keys in insertion order and has no duplicate
    key: assigning to a present key replaces the value in place,
    assigning to an absent key appends the item. *)
Module Dict.
Section Dict.
Context {K V : Type} `{EqDecision K}.

Definition t := list (K * V).

Definition empty : t := [].

(** [d.get(k)] *)
Fixpoint get (d : t) (k : K) : option V :=
  match d with
  | [] => None
  | (k', v) :: d' => if decide (k' = k) then Some v else get d' k
  end.

(** [k in d] *)
Definition mem (d : t) (k : K) : bool :=
  match get d k with Some _ => true | None => false end.

(** [d[k] = v] *)
Fixpoint set (d : t) (k : K) (v : V) : t :=
  match d with
  | [] => [(k, v)]
  | (k', v') :: d' =>
      if decide (k' = k) then (k, v) :: d' else (k', v') :: set d' k v
  end.

(** [d.keys()] *)
Definition keys (d : t) : list K := map fst d.

(** [dict(pairs)] *)
Definition of_pairs (l : list (K * V)) : t :=
  fold_left (fun d kv => set d (fst kv) (snd kv)) l empty.
End Dict.
Global Arguments t : clear implicits.
End Dict.

(** ** Sorting

    [sorted(l, key=key, reverse=True)]: descending by key and stable,
    elements with equal keys keep their order in [l]. [insert_desc]
    puts [x], which stood before every element of [l], in front of
    the first element whose key is not larger. *)
Fixpoint insert_desc {A} (key : A -> Z) (x : A) (l : list A) : list A :=
  match l with
  | [] => [x]
  | y :: l' => if key x <? key y then y :: insert_desc key x l' else x :: l
  end.

Definition sorted_desc {A} (key : A -> Z) (l : list A) : list A :=
  fold_right (insert_desc key) [] l.

End Py.

(* ===================================================================== *)
(** * NLTK: the tokenizer and the stop word list *)
(* ===================================================================== *)

Module NLTK.

(** [word_tokenize] is only ever applied to text that [re.sub] has
    reduced to the characters a-z, 0-9 and white space. On such text
    the sentence splitter finds no sentence end and no quote,
    punctuation, bracket or dash rule of the Treebank tokenizer
    applies; what remains is the contraction rules followed by
    [text.split()]. The contraction patterns without an apostrophe are
    [\b(can)(not)\b], [\b(gim)(me)\b], [\b(gon)(na)\b], [\b(got)(ta)\b],
    [\b(lem)(me)\b] and [\b(wan)(na)(?=\s)], each replaced by
    [" \1 \2 "]; the text is padded with a space on both sides before
    they run, so they rewrite exactly the words that are one of the six
    contractions. *)
Definition contractions2 : list (string * list string) :=
  [ ("cannot", ["can"; "not"]);
    ("gimme", ["gim"; "me"]);
    ("gonna", ["gon"; "na"]);
    ("gotta", ["got"; "ta"]);
    ("lemme", ["lem"; "me"]);
    ("wanna", ["wan"; "na"]) ]%string.

Definition split_contraction (w : string) : list string :=
  match Py.Dict.get contractions2 w with
  | Some parts => parts
  | None => [w]
  end.

Definition word_tokenize (text : string) : list string :=
  flat_map split_contraction (Py.split text).

(** [stopwords.words('english')]. Later releases of the corpus add
    further contracted forms, all of them spelled with an apostrophe. *)
Definition stopwords_english : list string :=
  [ "i"; "me"; "my"; "myself"; "we"; "our"; "ours"; "ourselves"; "you";
    "you're"; "you've"; "you'll"; "you'd"; "your"; "yours"; "yourself";
    "yourselves"; "he"; "him"; "his"; "himself"; "she"; "she's"; "her";
    "hers"; "herself"; "it"; "it's"; "its"; "itself"; "they"; "them";
    "their"; "theirs"; "themselves"; "what"; "which"; "who"; "whom";
    "this"; "that"; "that'll"; "these"; "those"; "am"; "is"; "are";
    "was"; "were"; "be"; "been"; "being"; "have"; "has"; "had";
    "having"; "do"; "does"; "did"; "doing"; "a"; "an"; "the"; "and";
    "but"; "if"; "or"; "because"; "as"; "until"; "while"; "of"; "at";
    "by"; "for"; "with"; "about"; "against"; "between"; "into";
    "through"; "during"; "before"; "after"; "above"; "below"; "to";
    "from"; "up"; "down"; "in"; "out"; "on"; "off"; "over"; "under";
    "again"; "further"; "then"; "once"; "here"; "there"; "when";
    "where"; "why"; "how"; "all"; "any"; "both"; "each"; "few"; "more";
    "most"; "other"; "some"; "such"; "no"; "nor"; "not"; "only"; "own";
    "same"; "so"; "than"; "too"; "very"; "s"; "t"; "can"; "will";
    "just"; "don"; "don't"; "should"; "should've"; "now"; "d"; "ll";
    "m"; "o"; "re"; "ve"; "y"; "ain"; "aren"; "aren't"; "couldn";
    "couldn't"; "didn"; "didn't"; "doesn"; "doesn't"; "hadn"; "hadn't";
    "hasn"; "hasn't"; "haven"; "haven't"; "isn"; "isn't"; "ma";
    "mightn"; "mightn't"; "mustn"; "mustn't"; "needn"; "needn't";
    "shan"; "shan't"; "shouldn"; "shouldn't"; "wasn"; "wasn't";
    "weren"; "weren't"; "won"; "won't"; "wouldn"; "wouldn't" ]%string.

End NLTK.

(* ===================================================================== *)
(** * json: [dump] with [indent=4] and [load] *)
(* ===================================================================== *)

Module Json.

(** The contents of a file. *)
Definition text := list ascii.

Definition DQUOTE : ascii := "034"%char.
Definition BACKSLASH : ascii := "092"%char.
Definition NEWLINE : ascii := "010"%char.

(** ** Encoding *)

Definition hex_digit (n : N) : ascii :=
  (if n <? 10 then ascii_of_N (48 + n) else ascii_of_N (87 + n))%N.

(** One character of a string under [ensure_ascii=True]: the short
    escapes, the printable ASCII characters as they are, and [\u00xx]
    with lower-case digits for the rest. *)
Definition escape_char (c : ascii) : text :=
  let n := N_of_ascii c in
  if (n =? 34)%N then [BACKSLASH; DQUOTE]
  else if (n =? 92)%N then [BACKSLASH; BACKSLASH]
  else if (n =? 10)%N then [BACKSLASH; "n"%char]
  else if (n =? 13)%N then [BACKSLASH; "r"%char]
  else if (n =? 9)%N then [BACKSLASH; "t"%char]
  else if (n =? 8)%N then [BACKSLASH; "b"%char]
  else if (n =? 12)%N then [BACKSLASH; "f"%char]
  else if ((32 <=? n) && (n <=? 126))%N then [c]
  else [BACKSLASH; "u"%char; "0"%char; "0"%char;
        hex_digit (n / 16); hex_digit (n mod 16)]%N.

Definition encode_str (s : string) : text :=
  DQUOTE :: flat_map escape_char (list_ascii_of_string s) ++ [DQUOTE].

(** [int.__repr__] *)
Definition encode_int (z : Z) : text :=
  list_ascii_of_string (NilZero.string_of_int (Z.to_int z)).

(** A line break followed by the indentation of [level]. *)
Definition newline_indent (level : nat) : text :=
  NEWLINE :: repeat " "%char (4 * level).

Fixpoint join (sep : text) (chunks : list text) : text :=
  match chunks with
  | [] => []
  | [c] => c
  | c :: rest => c ++ sep ++ join sep rest
  end.

(** A list of integers that sits at nesting depth [level]. *)
Definition encode_list (level : nat) (l : list Z) : text :=
  match l with
  | [] => ["["; "]"]%char
  | _ =>
      "["%char :: newline_indent (S level)
      ++ join (","%char :: newline_indent (S level)) (map encode_int l)
      ++ newline_indent level ++ ["]"%char]
  end.

Definition encode_item (kv : string * list Z) : text :=
  encode_str (fst kv) ++ [":"; " "]%char ++ encode_list 1 (snd kv).

(** [json.dump(d, f, indent=4)] for a dictionary from [str] to lists
    of [int]: the text written to [f]. *)
Definition dump (d : Py.Dict.t string (list Z)) : text :=
  match d with
  | [] => ["{"; "}"]%char
  | _ =>
      "{"%char :: newline_indent 1
      ++ join (","%char :: newline_indent 1) (map encode_item d)
      ++ newline_indent 0 ++ ["}"%char]
  end.

(** ** Decoding *)

Definition is_ws (c : ascii) : bool :=
  let n := N_of_ascii c in
  ((n =? 32) || (n =? 9) || (n =? 10) || (n =? 13))%N.

Fixpoint skip_ws (s : text) : text :=
  match s with
  | c :: s' => if is_ws c then skip_ws s' else s
  | [] => []
  end.

Definition hex_value (c : ascii) : option N :=
  let n := N_of_ascii c in
  if ((48 <=? n) && (n <=? 57))%N then Some (n - 48)%N
  else if ((97 <=? n) && (n <=? 102))%N then Some (n - 87)%N
  else if ((65 <=? n) && (n <=? 70))%N then Some (n - 55)%N
  else None.

(** The code point of [\uXXXX]; a code point outside the characters of
    the model is refused. *)
Definition unicode_escape (h1 h2 h3 h4 : ascii) : option ascii :=
  a ← hex_value h1; b ← hex_value h2; c ← hex_value h3; d ← hex_value h4;
  let n := (((a * 16 + b) * 16 + c) * 16 + d)%N in
  if (n <? 256)%N then Some (ascii_of_N n) else None.

(** The character after a backslash other than [u]. *)
Definition backslash (e : ascii) : option ascii :=
  let n := N_of_ascii e in
  if (n =? 34)%N then Some DQUOTE
  else if (n =? 92)%N then Some BACKSLASH
  else if (n =? 47)%N then Some "/"%char
  else if (n =? 98)%N then Some "008"%char
  else if (n =? 102)%N then Some "012"%char
  else if (n =? 110)%N then Some "010"%char
  else if (n =? 114)%N then Some "013"%char
  else if (n =? 116)%N then Some "009"%char
  else None.

(** [scanstring]: [s] starts after the opening quote; the result is the
    decoded string and the text after the closing quote. A raw control
    character is refused (strict mode). *)
Fixpoint scanstring (s : text) : option (list ascii * text) :=
  match s with
  | [] => None
  | c :: s1 =>
      if (N_of_ascii c =? 34)%N then Some ([], s1)
      else if (N_of_ascii c =? 92)%N then
        match s1 with
        | [] => None
        | e :: s2 =>
            if (N_of_ascii e =? 117)%N then
              match s2 with
              | h1 :: h2 :: h3 :: h4 :: s3 =>
                  ch ← unicode_escape h1 h2 h3 h4;
                  '(r, rest) ← scanstring s3;
                  Some (ch :: r, rest)
              | _ => None
              end
            else
              ch ← backslash e;
              '(r, rest) ← scanstring s2;
              Some (ch :: r, rest)
        end
      else if (N_of_ascii c <? 32)%N then None
      else
        '(r, rest) ← scanstring s1;
        Some (c :: r, rest)
  end.

Fixpoint span_digits (s : text) : text * text :=
  match s with
  | c :: s' =>
      if Py.is_digit c then
        let '(ds, rest) := span_digits s' in (c :: ds, rest)
      else ([], s)
  | [] => ([], [])
  end.

(** A number: an optional minus sign, then either a single 0 or a
    digit 1-9 followed by digits; one that goes on with a fraction or
    an exponent is a float and outside the model. *)
Definition scan_int (s : text) : option (Z * text) :=
  let '(negative, s1) :=
    match s with
    | "-"%char :: s' => (true, s')
    | _ => (false, s)
    end in
  let '(ds, rest) :=
    match s1 with
    | "0"%char :: s' => (["0"%char], s')
    | _ => span_digits s1
    end in
  match ds with
  | [] => None
  | _ =>
      match rest with
      | "."%char :: _ | "e"%char :: _ | "E"%char :: _ => None
      | _ =>
          d ← NilEmpty.uint_of_string (string_of_list_ascii ds);
          Some (Z.of_int (if negative : bool then Neg d else Pos d), rest)
      end
  end.

(** The elements of an array of integers; [s] starts at an element. *)
Fixpoint scan_elements (fuel : nat) (s : text) : option (list Z * text) :=
  match fuel with
  | O => None
  | S fuel =>
      '(v, s1) ← scan_int s;
      match skip_ws s1 with
      | "]"%char :: rest => Some ([v], rest)
      | ","%char :: rest =>
          '(vs, rest') ← scan_elements fuel (skip_ws rest);
          Some (v :: vs, rest')
      | _ => None
      end
  end.

(** [JSONArray]: [s] starts after the opening bracket. *)
Definition scan_array (s : text) : option (list Z * text) :=
  match skip_ws s with
  | "]"%char :: rest => Some ([], rest)
  | s1 => scan_elements (length s1) s1
  end.

(** The items of an object; [s] starts after the opening quote of a
    key. A value that is no array of integers is outside the model. *)
Fixpoint scan_items (fuel : nat) (s : text)
  : option (list (string * list Z) * text) :=
  match fuel with
  | O => None
  | S fuel =>
      '(k, s1) ← scanstring s;
      match skip_ws s1 with
      | ":"%char :: s2 =>
          match skip_ws s2 with
          | "["%char :: s3 =>
              '(v, s4) ← scan_array s3;
              match skip_ws s4 with
              | "}"%char :: rest =>
                  Some ([(string_of_list_ascii k, v)], rest)
              | ","%char :: s5 =>
                  match skip_ws s5 with
                  | "034"%char :: s6 =>
                      '(kvs, rest) ← scan_items fuel s6;
                      Some ((string_of_list_ascii k, v) :: kvs, rest)
                  | _ => None
                  end
              | _ => None
              end
          | _ => None
          end
      | _ => None
      end
  end.

(** [JSONObject]: [s] starts after the opening brace. *)
Definition scan_object (s : text)
  : option (list (string * list Z) * text) :=
  match skip_ws s with
  | "}"%char :: rest => Some ([], rest)
  | "034"%char :: s1 => scan_items (length s1) s1
  | _ => None
  end.

(** [json.load(f)] of a file whose document is an object of arrays of
    integers; [None] stands for [JSONDecodeError] and for a document
    of another shape. *)
Definition load (s : text) : option (Py.Dict.t string (list Z)) :=
  match skip_ws s with
  | "{"%char :: s1 =>
      '(pairs, rest) ← scan_object s1;
      match skip_ws rest with
      | [] => Some (Py.Dict.of_pairs pairs)
      | _ => None
      end
  | _ => None
  end.

End Json.

(* ===================================================================== *)
(** * The document store *)
(* ===================================================================== *)

(** One row of the table [pages]; [crawled_at] is never read. *)
Record page := Page {
  page_id : Z;
  page_url : string;
  html_content : string;
  text_content : string
}.

(** The table [pages] in rowid order, and the largest rowid handed out so
    far (the counter behind [AUTOINCREMENT]). *)
Record database := Database {
  pages : list page;
  seq : Z
}.

Definition has_url (db : database) (url : string) : bool :=
  existsb (fun p => String.eqb (page_url p) url) (pages db).

(** [INSERT INTO pages (url, html_content, text_content) VALUES (?, ?, ?)]:
    [None] stands for the [IntegrityError] of the [UNIQUE] constraint on
    [url]. *)
Definition insert_page (db : database) (url html text : string)
  : option database :=
  if has_url db url then None
  else Some {| pages := pages db ++ [Page (seq db + 1) url html text];
               seq := seq db + 1 |}.

(** [SELECT url, text_content FROM pages WHERE id = ?] and [fetchone()] *)
Definition select_by_id (db : database) (doc_id : Z) : option (string * string) :=
  match find (fun p => page_id p =? doc_id) (pages db) with
  | Some p => Some (page_url p, text_content p)
  | None => None
  end.

(** [SELECT id, text_content FROM pages] and [fetchall()] *)
Definition select_all (db : database) : list (Z * string) :=
  map (fun p => (page_id p, text_content p)) (pages db).

(** The inverted index: term to posting list. *)
Abbreviation index := (Py.Dict.t string (list Z)).

(* ===================================================================== *)
(** * indexer.py *)
(* ===================================================================== *)

Module Indexer.

Record t := Make {
  conn : database;
  stop_words : gset string;
  inverted_index : index
}.

(** [Indexer.__init__] *)
Definition init (db : database) : t :=
  {| conn := db;
     stop_words := list_to_set NLTK.stopwords_english;
     inverted_index := Py.Dict.empty |}.

(** [Indexer._preprocess_text] *)
Definition _preprocess_text (self : t) (text : string) : list string :=
  let text := Py.lower text in
  let text := Py.re_sub_non_alnum_space text in
  let tokens := NLTK.word_tokenize text in
  filter (fun word => word ∉ stop_words self) tokens.

(** The body of the inner loop of [build_index] for one [word]. *)
Definition add_posting (idx : index) (word : string) (doc_id : Z) : index :=
  let idx :=
    if Py.Dict.mem idx word then idx else Py.Dict.set idx word [] in
  let postings := default [] (Py.Dict.get idx word) in
  if bool_decide (doc_id ∈ postings) then idx
  else Py.Dict.set idx word (postings ++ [doc_id]).

(** The body of the outer loop of [build_index] for one row. *)
Definition index_row (self : t) (idx : index) (row : Z * string) : index :=
  let '(doc_id, text_content) := row in
  fold_left (fun idx word => add_posting idx word doc_id)
            (_preprocess_text self text_content) idx.

(** [Indexer.build_index] *)
Definition build_index (self : t) : t :=
  let rows := select_all (conn self) in
  {| conn := conn self;
     stop_words := stop_words self;
     inverted_index := fold_left (index_row self) rows (inverted_index self) |}.

(** [Indexer.save_index]: the contents of the index file. *)
Definition save_index (self : t) : Json.text :=
  Json.dump (inverted_index self).

End Indexer.

(* ===================================================================== *)
(** * searcher.py *)
(* ===================================================================== *)

Module Searcher.

Record t := Make {
  conn : database;
  inverted_index : index;
  stop_words : gset string
}.

(** [Searcher.__init__]: [index_file] is the contents of the file at
    [index_path]; [None] when [json.load] raises. *)
Definition init (db : database) (index_file : Json.text) : option t :=
  idx ← Json.load index_file;
  Some {| conn := db;
          inverted_index := idx;
          stop_words := list_to_set NLTK.stopwords_english |}.

(** [Searcher._preprocess_query] *)
Definition _preprocess_query (self : t) (query : string) : list string :=
  let query := Py.lower query in
  let query := Py.re_sub_non_alnum_space query in
  let tokens := NLTK.word_tokenize query in
  filter (fun word => word ∉ stop_words self) tokens.

(** [self.inverted_index.get(word, [])] *)
Definition postings (self : t) (word : string) : list Z :=
  default [] (Py.Dict.get (inverted_index self) word).

(** The candidate set of [search]: [set(...)] of the postings of the
    first word, then one [intersection_update] per further word. *)
Definition result_doc_ids (self : t) (first : string) (rest : list string)
  : gset Z :=
  fold_left (fun acc word => acc ∩ list_to_set (postings self word))
            rest (list_to_set (postings self first)).

(** The candidate set that [search] computes for [query]; a query
    without terms returns before any set is built. *)
Definition candidates (self : t) (query : string) : gset Z :=
  match _preprocess_query self query with
  | [] => ∅
  | first :: rest => result_doc_ids self first rest
  end.

(** [doc_scores[doc_id] += 1] on a [defaultdict(int)] *)
Definition bump (scores : Py.Dict.t Z Z) (doc_id : Z) : Py.Dict.t Z Z :=
  Py.Dict.set scores doc_id (default 0 (Py.Dict.get scores doc_id) + 1).

(** The two nested scoring loops. A Python [set] is iterated in an
    order that the language leaves open; [elements] stands for it. *)
Definition doc_scores (ids : gset Z) (processed_query : list string)
  : Py.Dict.t Z Z :=
  fold_left
    (fun scores doc_id =>
       fold_left (fun scores _ => bump scores doc_id) processed_query scores)
    (elements ids) Py.Dict.empty.

(** [sorted(doc_scores.keys(), key=lambda x: doc_scores[x], reverse=True)] *)
Definition sorted_doc_ids (scores : Py.Dict.t Z Z) : list Z :=
  Py.sorted_desc (fun x => default 0 (Py.Dict.get scores x))
                 (Py.Dict.keys scores).

(** [text_content[:100].strip() + "..."] *)
Definition title_snippet (text_content : string) : string :=
  Py.strip (Py.slice_to 100 text_content) +:+ "...".

(** The last loop of [search]: an id without a row adds nothing. *)
Fixpoint fetch_results (self : t) (ids : list Z) : list (string * string) :=
  match ids with
  | [] => []
  | doc_id :: ids' =>
      match select_by_id (conn self) doc_id with
      | Some (url, text_content) =>
          (url, title_snippet text_content) :: fetch_results self ids'
      | None => fetch_results self ids'
      end
  end.

(** [Searcher.search] *)
Definition search (self : t) (query : string) : list (string * string) :=
  let processed_query := _preprocess_query self query in
  match processed_query with
  | [] => []
  | first :: rest =>
      let ids := result_doc_ids self first rest in
      if decide (ids = ∅) then []
      else
        let scores := doc_scores ids processed_query in
        fetch_results self (sorted_doc_ids scores)
  end.

End Searcher.

(* ===================================================================== *)
(** * crawler.py *)
(* ===================================================================== *)

Module Crawler.

(** A [RobotFileParser] after a successful [read()], seen through
    [can_fetch("*", url)]. *)
Abbreviation robot_parser := (string -> bool).

(** The answer to [requests.get]. *)
Record response := Response {
  status_code : Z;
  text : string
}.

(** What the crawl loop reads off [BeautifulSoup(html, 'html.parser')]:
    [get_text(separator=' ', strip=True)] and the [href] of every
    anchor that has one, in document order. *)
Record soup := Soup {
  get_text : string;
  hrefs : list string
}.

(** Everything outside the process. The first argument of
    [robots_read] and [requests_get] is the number of the loop
    iteration that asks; [None] is a raised exception. *)
Record world := World {
  (** [scheme://netloc] of [urlparse(url)] *)
  base_url : string -> string;
  (** [rp.read()] for the robots.txt of a base URL *)
  robots_read : nat -> string -> option robot_parser;
  (** [requests.get(url, timeout=5, ...)]; [None] is a [RequestException] *)
  requests_get : nat -> string -> option response;
  (** [BeautifulSoup(html_content, 'html.parser')] *)
  parse_html : string -> option soup;
  (** [urljoin(url, href)]; [None] is the [ValueError] of a malformed URL *)
  urljoin : string -> string -> option string
}.

Record t := Make {
  conn : database;
  queue : list string;
  visited_urls : gset string;
  robot_parsers : gmap string robot_parser
}.

(** [Crawler.__init__]; the table exists already or is created empty. *)
Definition init (db : database) (seed_urls : list string) : t :=
  {| conn := db;
     queue := seed_urls;
     visited_urls := ∅;
     robot_parsers := ∅ |}.

Definition with_parsers (self : t) (rps : gmap string robot_parser) : t :=
  {| conn := conn self; queue := queue self;
     visited_urls := visited_urls self; robot_parsers := rps |}.

Definition with_conn (self : t) (db : database) : t :=
  {| conn := db; queue := queue self;
     visited_urls := visited_urls self;
     robot_parsers := robot_parsers self |}.

Definition with_queue (self : t) (q : list string) : t :=
  {| conn := conn self; queue := q;
     visited_urls := visited_urls self;
     robot_parsers := robot_parsers self |}.

Definition with_visited (self : t) (v : gset string) : t :=
  {| conn := conn self; queue := queue self;
     visited_urls := v; robot_parsers := robot_parsers self |}.

(** [Crawler._can_fetch] at iteration [now] *)
Definition _can_fetch (w : world) (now : nat) (self : t) (url : string)
  : bool * t :=
  let base := base_url w url in
  match robot_parsers self !! base with
  | Some rp => (rp url, self)
  | None =>
      match robots_read w now base with
      | Some rp => (rp url, with_parsers self (<[base := rp]> (robot_parsers self)))
      | None => (false, self)
      end
  end.

(** [Crawler._store_page]: an [IntegrityError] is caught and leaves the
    table as it was. *)
Definition _store_page (self : t) (url html_content text_content : string)
  : t :=
  match insert_page (conn self) url html_content text_content with
  | Some db => with_conn self db
  | None => self
  end.

(** The body of the loop over the anchors for one [absolute_link]. *)
Definition enqueue (queue : list string) (absolute_link : string)
  : list string :=
  if Py.startswith absolute_link "http" then queue ++ [absolute_link]
  else queue.

(** The loop over the anchors; when [urljoin] raises, the exception
    leaves the loop and the remaining anchors are dropped. *)
Fixpoint enqueue_links (w : world) (url : string) (queue : list string)
  (links : list string) : list string :=
  match links with
  | [] => queue
  | href :: links' =>
      match urljoin w url href with
      | Some absolute_link =>
          enqueue_links w url (enqueue queue absolute_link) links'
      | None => queue
      end
  end.

(** The state of the loop of [crawl]. *)
Record loop_state := Loop {
  self : t;
  pages_crawled : Z;
  clock : nat
}.

(** The [try] block of one iteration, entered after
    [visited_urls.add(url)]. Every exception is caught by one of the two
    handlers, which only print. *)
Definition try_block (w : world) (now : nat) (self : t) (url : string)
  (crawled : Z) : t * Z :=
  match requests_get w now url with
  | None => (self, crawled)
  | Some response =>
      if negb (status_code response =? 200) then (self, crawled)
      else
        let html_content := text response in
        match parse_html w html_content with
        | None => (self, crawled)
        | Some soup =>
            let text_content := get_text soup in
            let self := _store_page self url html_content text_content in
            let crawled := crawled + 1 in
            (with_queue self (enqueue_links w url (queue self) (hrefs soup)),
             crawled)
        end
  end.

(** One iteration of the loop, entered with [url] at the head of the
    queue and [rest] behind it. *)
Definition iteration (w : world) (st : loop_state) (url : string)
  (rest : list string) : loop_state :=
  let now := clock st in
  let popped := with_queue (self st) rest in
  if bool_decide (url ∈ visited_urls popped) then
    {| self := popped; pages_crawled := pages_crawled st; clock := S now |}
  else
    let '(allowed, checked) := _can_fetch w now popped url in
    if negb allowed then
      {| self := checked; pages_crawled := pages_crawled st; clock := S now |}
    else
      let marked := with_visited checked ({[url]} ∪ visited_urls checked) in
      let '(self', crawled) :=
        try_block w now marked url (pages_crawled st) in
      {| self := self'; pages_crawled := crawled; clock := S now |}.

(** The loop test and one iteration: [None] when
    [self.queue and pages_crawled < max_pages] is false. *)
Definition crawl_step (w : world) (max_pages : Z) (st : loop_state)
  : option loop_state :=
  match queue (self st) with
  | [] => None
  | url :: rest =>
      if pages_crawled st <? max_pages then Some (iteration w st url rest)
      else None
  end.

(** The loop run for at most [fuel] iterations: [Some] is the state in
    which the loop test failed, [None] says that [fuel] iterations did
    not reach it. *)
Fixpoint crawl_loop (w : world) (max_pages : Z) (fuel : nat)
  (st : loop_state) : option loop_state :=
  match crawl_step w max_pages st with
  | None => Some st
  | Some st' =>
      match fuel with
      | O => None
      | S fuel' => crawl_loop w max_pages fuel' st'
      end
  end.

(** [Crawler.crawl] *)
Definition crawl (w : world) (fuel : nat) (crawler : t) (max_pages : Z)
  : option loop_state :=
  crawl_loop w max_pages fuel
    {| self := crawler; pages_crawled := 0; clock := O |}.

End Crawler.

(* ===================================================================== *)
(** * The design document's tokenizer and the demonstration scenarios *)
(* ===================================================================== *)

Module Spec.

(** The reference pipeline in the words of the design document:
    lowercase the text; strip every character that is not an ASCII
    letter, digit, or whitespace; split on whitespace into tokens; drop
    tokens present in the stopword set. *)
Definition is_ascii_letter (c : ascii) : bool :=
  Py.is_lower_az c || Py.is_upper_az c.

Definition keep (c : ascii) : bool :=
  is_ascii_letter c || Py.is_digit c || Py.isspace c.

Definition normalize (text : string) : string :=
  Py.str_filter keep (Py.lower text).

Definition tokenize (text : string) : list string :=
  filter (fun token => token ∉ NLTK.stopwords_english)
         (Py.split (normalize text)).

End Spec.

Module Scenario.

(** The three documents of the end-to-end scenario. *)
Definition three_docs : database :=
  {| pages :=
       [ Page 1 "http://a.test/1" "" "cats and dogs are friends";
         Page 2 "http://a.test/2" "" "cats hate water";
         Page 3 "http://a.test/3" "" "dogs love parks" ];
     seq := 3 |}.

Definition three_docs_index : Indexer.t :=
  Indexer.build_index (Indexer.init three_docs).

Definition three_docs_searcher : Searcher.t :=
  {| Searcher.conn := three_docs;
     Searcher.inverted_index := Indexer.inverted_index three_docs_index;
     Searcher.stop_words := list_to_set NLTK.stopwords_english |}.

(** A searcher over an index that also lists ids 7 and 9, which have
    no row. *)
Definition stale_searcher : Searcher.t :=
  {| Searcher.conn := three_docs;
     Searcher.inverted_index :=
       [ ("cats", [7; 1; 2; 9]); ("dogs", [1; 3; 9]) ];
     Searcher.stop_words := list_to_set NLTK.stopwords_english |}.

(** [scheme://netloc] of a URL written [scheme://netloc/path]. *)
Fixpoint until_slash (s : string) : string :=
  match s with
  | String c s' =>
      if Ascii.eqb c "/" then EmptyString else String c (until_slash s')
  | EmptyString => EmptyString
  end.

Fixpoint scheme_netloc (s : string) : string :=
  match s with
  | String ":" (String "/" (String "/" rest)) => "://" +:+ until_slash rest
  | String c s' => String c (scheme_netloc s')
  | EmptyString => EmptyString
  end.

Definition allow_all : Crawler.robot_parser := fun _ => true.

(** Every site allows everything and every URL is a page without
    anchors. *)
Definition open_web : Crawler.world :=
  {| Crawler.base_url := scheme_netloc;
     Crawler.robots_read := fun _ _ => Some allow_all;
     Crawler.requests_get := fun _ _ => Some (Crawler.Response 200 "<html></html>");
     Crawler.parse_html := fun _ => Some (Crawler.Soup "" []);
     Crawler.urljoin := fun _ href => Some href |}.

(** As [open_web], but the robots.txt of every site cannot be read
    during the first iteration. *)
Definition flaky_robots : Crawler.world :=
  {| Crawler.base_url := scheme_netloc;
     Crawler.robots_read :=
       fun now _ => match now with O => None | S _ => Some allow_all end;
     Crawler.requests_get := fun _ _ => Some (Crawler.Response 200 "<html></html>");
     Crawler.parse_html := fun _ => Some (Crawler.Soup "" []);
     Crawler.urljoin := fun _ href => Some href |}.

(** As [open_web], but no robots.txt can ever be read. *)
Definition no_robots : Crawler.world :=
  {| Crawler.base_url := scheme_netloc;
     Crawler.robots_read := fun _ _ => None;
     Crawler.requests_get := fun _ _ => Some (Crawler.Response 200 "<html></html>");
     Crawler.parse_html := fun _ => Some (Crawler.Soup "" []);
     Crawler.urljoin := fun _ href => Some href |}.

(** Every page links to itself and to one further page. *)
Definition linked_web : Crawler.world :=
  {| Crawler.base_url := scheme_netloc;
     Crawler.robots_read := fun _ _ => Some allow_all;
     Crawler.requests_get := fun _ _ => Some (Crawler.Response 200 "<html></html>");
     Crawler.parse_html :=
       fun _ => Some (Crawler.Soup "" ["http://a.test/"; "mailto:x@a.test";
                                       "https://b.test/"]);
     Crawler.urljoin := fun _ href => Some href |}.

(** A store left by an earlier run. *)
Definition earlier_run : database :=
  {| pages := [ Page 1 "http://a.test/" "<html></html>" "" ]; seq := 1 |}.

Definition empty_store : database := {| pages := []; seq := 0 |}.

(** The loop about to start a second run over the store of the earlier
    one, with two seeds. *)
Definition rerun_start : Crawler.loop_state :=
  {| Crawler.self :=
       Crawler.init earlier_run ["http://a.test/"; "http://b.test/"];
     Crawler.pages_crawled := 0;
     Crawler.clock := O |}.

End Scenario.

(* ===================================================================== *)
(** * Notions used in the proofs about the index file *)
(* ===================================================================== *)

Module JsonText.

(** The characters that follow a number in a dumped list. *)
Definition after_number (c : ascii) : bool :=
  Ascii.eqb c ","%char || Ascii.eqb c Json.NEWLINE.

(** The characters of a decimal number. *)
Definition digits_of (d : Decimal.uint) : Json.text :=
  list_ascii_of_string (NilEmpty.string_of_uint d).

(** The first character of a number. *)
Definition number_start (c : ascii) : bool :=
  Py.is_digit c || Ascii.eqb c "-"%char.

(** A dumped item without its opening quote. *)
Definition item_tail (kv : string * list Z) : Json.text :=
  flat_map Json.escape_char (list_ascii_of_string (fst kv))
  ++ Json.DQUOTE :: ":"%char :: " "%char :: Json.encode_list 1 (snd kv).

End JsonText.

(* ===================================================================== *)
(** * Notions used in the proofs about the index *)
(* ===================================================================== *)

Module Postings.

(** The posting list of [word] in [idx], empty when the index does not
    have the word. *)
Definition lookup (idx : index) (word : string) : list Z :=
  default [] (Py.Dict.get idx word).

(** [l] with [doc_id] appended unless it is there already. *)
Definition append_new (l : list Z) (doc_id : Z) : list Z :=
  if bool_decide (doc_id ∈ l) then l else l ++ [doc_id].

(** The posting list of [word] after the rows have been indexed, as a
    function of the posting list before. *)
Definition after_rows (self : Indexer.t) (word : string)
  (rows : list (Z * string)) (l : list Z) : list Z :=
  fold_left
    (fun l row =>
       if bool_decide (word ∈ Indexer._preprocess_text self (snd row))
       then append_new l (fst row) else l)
    rows l.

End Postings.

(* ===================================================================== *)
(** * Notions used in the proofs about terms *)
(* ===================================================================== *)

Module Terms.

(** The characters of a term: a-z and 0-9. *)
Definition term_char (c : ascii) : bool := Py.is_lower_az c || Py.is_digit c.

(** A term: not empty and made of term characters. *)
Definition is_term (w : string) : Prop :=
  w <> EmptyString /\ Py.str_forall term_char w = true.

End Terms.

(* ===================================================================== *)
(** * Facts about dictionaries and sorting *)
(* ===================================================================== *)

Section DictFacts.
Context {K V : Type} `{EqDecision K}.
Implicit Types (d : Py.Dict.t K V) (k : K) (v : V).

Lemma dict_get_set d k v k' :
  Py.Dict.get (Py.Dict.set d k v) k'
  = if decide (k = k') then Some v else Py.Dict.get d k'.
Proof.
  induction d as [|[k0 v0] d IH]; simpl.
  - destruct (decide (k = k')); reflexivity.
  - destruct (decide (k0 = k)) as [->|Hne]; simpl.
    + destruct (decide (k = k')); reflexivity.
    + destruct (decide (k0 = k')) as [->|Hne'].
      * destruct (decide (k = k')); [congruence | reflexivity].
      * apply IH.
Qed.

Lemma dict_get_None d k : Py.Dict.get d k = None <-> k ∉ Py.Dict.keys d.
Proof.
  induction d as [|[k0 v0] d IH]; simpl.
  - split; [intros _; apply not_elem_of_nil | reflexivity].
  - rewrite not_elem_of_cons. destruct (decide (k0 = k)) as [->|Hne].
    + split; [discriminate | intros [Hk _]; congruence].
    + rewrite IH. split; [intros Hd; split; [congruence | exact Hd] | tauto].
Qed.

Lemma dict_get_Some_keys d k v : Py.Dict.get d k = Some v -> k ∈ Py.Dict.keys d.
Proof.
  intros Hget. destruct (decide (k ∈ Py.Dict.keys d)) as [Hin|Hnin]; [exact Hin|].
  apply dict_get_None in Hnin. congruence.
Qed.

Lemma dict_set_fresh d k v :
  Py.Dict.get d k = None -> Py.Dict.set d k v = d ++ [(k, v)].
Proof.
  induction d as [|[k0 v0] d IH]; simpl; [reflexivity|].
  destruct (decide (k0 = k)); [discriminate|].
  intros Hget. rewrite IH by exact Hget. reflexivity.
Qed.

Lemma dict_keys_set_present d k v :
  Py.Dict.get d k <> None -> Py.Dict.keys (Py.Dict.set d k v) = Py.Dict.keys d.
Proof.
  induction d as [|[k0 v0] d IH]; simpl; [congruence|].
  destruct (decide (k0 = k)) as [->|Hne]; simpl; [reflexivity|].
  intros Hget. f_equal. apply IH, Hget.
Qed.

Lemma dict_set_set d k v v' :
  Py.Dict.set (Py.Dict.set d k v) k v' = Py.Dict.set d k v'.
Proof.
  induction d as [|[k0 v0] d IH]; simpl.
  - destruct (decide (k = k)); [reflexivity | congruence].
  - destruct (decide (k0 = k)) as [->|Hne]; simpl.
    + destruct (decide (k = k)); [reflexivity | congruence].
    + destruct (decide (k0 = k)); [congruence|]. f_equal. apply IH.
Qed.

Lemma dict_keys_NoDup_set d k v :
  NoDup (Py.Dict.keys d) -> NoDup (Py.Dict.keys (Py.Dict.set d k v)).
Proof.
  intros Hnd. destruct (Py.Dict.get d k) as [v0|] eqn:Hget.
  - rewrite dict_keys_set_present by congruence. exact Hnd.
  - rewrite dict_set_fresh by exact Hget.
    unfold Py.Dict.keys. rewrite map_app. simpl.
    apply NoDup_app. split; [exact Hnd|]. split.
    + intros x Hx Hx'. apply list_elem_of_singleton in Hx'. subst x.
      apply dict_get_None in Hget. exact (Hget Hx).
    + apply NoDup_singleton.
Qed.

(** [dict(pairs)] of pairs with pairwise different keys is the list of
    pairs itself. *)
Lemma dict_of_pairs_app (acc l : list (K * V)) :
  NoDup (map fst (acc ++ l)) ->
  fold_left (fun d kv => Py.Dict.set d (fst kv) (snd kv)) l acc = acc ++ l.
Proof.
  revert acc. induction l as [|[k v] l IH]; intros acc Hnd; simpl.
  - rewrite app_nil_r. reflexivity.
  - rewrite dict_set_fresh.
    + rewrite IH; rewrite <- app_assoc; [reflexivity | exact Hnd].
    + apply dict_get_None. unfold Py.Dict.keys.
      rewrite map_app in Hnd. apply NoDup_app in Hnd as (_ & Hdisj & _).
      intros Hin. apply (Hdisj k Hin). simpl. apply list_elem_of_here.
Qed.

Lemma dict_of_pairs_NoDup (l : list (K * V)) :
  NoDup (map fst l) -> Py.Dict.of_pairs l = l.
Proof. intros Hnd. unfold Py.Dict.of_pairs. apply (dict_of_pairs_app [] l Hnd). Qed.
End DictFacts.

Section SortFacts.
Context {A : Type} (key : A -> Z).

(** When all keys are equal the stable sort changes nothing. *)
Lemma sorted_desc_constant (l : list A) (n : Z) :
  Forall (fun x => key x = n) l -> Py.sorted_desc key l = l.
Proof.
  induction 1 as [|x l Hx Hl IH]; simpl; [reflexivity|].
  fold (Py.sorted_desc key l). rewrite IH.
  destruct Hl as [|y l Hy Hl]; simpl; [reflexivity|].
  rewrite Hx, Hy, Z.ltb_irrefl. reflexivity.
Qed.

Lemma insert_desc_perm (x : A) (l : list A) : Py.insert_desc key x l ≡ₚ x :: l.
Proof.
  induction l as [|y l IH]; simpl; [reflexivity|].
  destruct (key x <? key y); [|reflexivity].
  rewrite IH. apply Permutation_swap.
Qed.

Lemma sorted_desc_perm (l : list A) : Py.sorted_desc key l ≡ₚ l.
Proof.
  induction l as [|x l IH]; simpl; [reflexivity|].
  rewrite insert_desc_perm. fold (Py.sorted_desc key l). rewrite IH. reflexivity.
Qed.
End SortFacts.

(* ===================================================================== *)
(** * Retrieval: candidates, scores and results *)
(* ===================================================================== *)

Section Retrieval.
Variable self : Searcher.t.

Lemma intersection_fold (rest : list string) (acc : gset Z) (d : Z) :
  d ∈ fold_left (fun acc word => acc ∩ list_to_set (Searcher.postings self word))
                rest acc
  <-> d ∈ acc /\ forall word, word ∈ rest -> d ∈ Searcher.postings self word.
Proof.
  revert acc. induction rest as [|w rest IH]; intros acc; simpl.
  - split; [intros Hd; split; [exact Hd|] | tauto].
    intros word Hw. apply elem_of_nil in Hw. destruct Hw.
  - rewrite IH, elem_of_intersection, elem_of_list_to_set. split.
    + intros [[Hacc Hw] Hrest]. split; [exact Hacc|].
      intros word Hin. apply elem_of_cons in Hin as [->|Hin]; auto.
    + intros [Hacc Hall]. repeat split; [exact Hacc | | ].
      * apply Hall, list_elem_of_here.
      * intros word Hin. apply Hall, list_elem_of_further, Hin.
Qed.

Lemma result_doc_ids_spec (first : string) (rest : list string) (d : Z) :
  d ∈ Searcher.result_doc_ids self first rest
  <-> forall word, word ∈ first :: rest -> d ∈ Searcher.postings self word.
Proof.
  unfold Searcher.result_doc_ids. rewrite intersection_fold, elem_of_list_to_set.
  split.
  - intros [Hfirst Hrest] word Hin.
    apply elem_of_cons in Hin as [->|Hin]; auto.
  - intros Hall. split; [apply Hall, list_elem_of_here|].
    intros word Hin. apply Hall, list_elem_of_further, Hin.
Qed.

(** The inner scoring loop adds the number of query terms. *)
Lemma score_one_doc (processed_query : list string) (doc_id : Z)
      (scores : Py.Dict.t Z Z) :
  processed_query <> [] ->
  fold_left (fun scores (_ : string) => Searcher.bump scores doc_id)
            processed_query scores
  = Py.Dict.set scores doc_id
      (default 0 (Py.Dict.get scores doc_id) + Z.of_nat (length processed_query)).
Proof.
  revert scores. induction processed_query as [|w q IH]; intros scores Hne;
    [congruence|].
  destruct q as [|w' q].
  - simpl. reflexivity.
  - change (fold_left _ (w :: w' :: q) scores)
      with (fold_left (fun scores (_ : string) => Searcher.bump scores doc_id)
                      (w' :: q) (Searcher.bump scores doc_id)).
    rewrite IH by discriminate. unfold Searcher.bump.
    rewrite dict_get_set. destruct (decide (doc_id = doc_id)); [|congruence].
    rewrite dict_set_set. simpl default. f_equal.
    rewrite (length_cons w). lia.
Qed.

(** The outer scoring loop over ids that are pairwise different and
    not yet scored. *)
Lemma score_all_docs (processed_query : list string) (ids : list Z)
      (scores : Py.Dict.t Z Z) :
  processed_query <> [] ->
  NoDup (Py.Dict.keys scores ++ ids) ->
  fold_left
    (fun scores doc_id =>
       fold_left (fun scores (_ : string) => Searcher.bump scores doc_id)
                 processed_query scores)
    ids scores
  = scores ++ map (fun d => (d, Z.of_nat (length processed_query))) ids.
Proof.
  intros Hne. revert scores. induction ids as [|d ids IH]; intros scores Hnd.
  - simpl. rewrite app_nil_r. reflexivity.
  - cbn [fold_left]. rewrite score_one_doc by exact Hne.
    assert (Hfresh : Py.Dict.get scores d = None).
    { apply dict_get_None. apply NoDup_app in Hnd as (_ & Hdisj & _).
      intros Hin. apply (Hdisj d Hin), list_elem_of_here. }
    rewrite Hfresh, dict_set_fresh by exact Hfresh. simpl default.
    rewrite IH.
    + rewrite <- app_assoc. reflexivity.
    + unfold Py.Dict.keys. rewrite map_app, <- app_assoc. exact Hnd.
Qed.

Lemma doc_scores_eq (ids : gset Z) (processed_query : list string) :
  processed_query <> [] ->
  Searcher.doc_scores ids processed_query
  = map (fun d => (d, Z.of_nat (length processed_query))) (elements ids).
Proof.
  intros Hne. unfold Searcher.doc_scores.
  rewrite score_all_docs; [reflexivity | exact Hne | apply NoDup_elements].
Qed.

Lemma get_constant_scores (l : list Z) (n d : Z) :
  d ∈ l -> Py.Dict.get (map (fun d => (d, n)) l) d = Some n.
Proof.
  induction l as [|x l IH]; intros Hin; [apply elem_of_nil in Hin; destruct Hin|].
  simpl. destruct (decide (x = d)); [reflexivity|].
  apply IH. apply elem_of_cons in Hin as [->|Hin]; [congruence | exact Hin].
Qed.

Lemma keys_constant_scores (l : list Z) (n : Z) :
  Py.Dict.keys (map (fun d => (d, n)) l) = l.
Proof. unfold Py.Dict.keys. rewrite map_map. apply map_id. Qed.

Lemma sorted_doc_ids_eq (ids : gset Z) (processed_query : list string) :
  processed_query <> [] ->
  Searcher.sorted_doc_ids (Searcher.doc_scores ids processed_query)
  = elements ids.
Proof.
  intros Hne. unfold Searcher.sorted_doc_ids. rewrite doc_scores_eq by exact Hne.
  rewrite keys_constant_scores.
  apply sorted_desc_constant with (n := Z.of_nat (length processed_query)).
  apply Forall_forall. intros d Hd.
  rewrite get_constant_scores by exact Hd. reflexivity.
Qed.

Lemma fetch_results_elem (ids : list Z) (r : string * string) :
  r ∈ Searcher.fetch_results self ids
  <-> exists d url text_content,
        d ∈ ids /\
        select_by_id (Searcher.conn self) d = Some (url, text_content) /\
        r = (url, Searcher.title_snippet text_content).
Proof.
  induction ids as [|x ids IH]; simpl.
  - split; [intros Hr; apply elem_of_nil in Hr; destruct Hr|].
    intros (d & _ & _ & Hd & _). apply elem_of_nil in Hd. destruct Hd.
  - destruct (select_by_id (Searcher.conn self) x) as [[url text_content]|] eqn:Hrow.
    + rewrite elem_of_cons, IH. split.
      * intros [->|(d & u & t & Hd & Hsel & ->)].
        -- exists x, url, text_content. split; [apply list_elem_of_here | auto].
        -- exists d, u, t. split; [apply list_elem_of_further, Hd | auto].
      * intros (d & u & t & Hd & Hsel & ->).
        apply elem_of_cons in Hd as [->|Hd].
        -- left. rewrite Hrow in Hsel. congruence.
        -- right. exists d, u, t. auto.
    + rewrite IH. split.
      * intros (d & u & t & Hd & Hsel & ->).
        exists d, u, t. split; [apply list_elem_of_further, Hd | auto].
      * intros (d & u & t & Hd & Hsel & ->).
        apply elem_of_cons in Hd as [->|Hd]; [congruence|].
        exists d, u, t. auto.
Qed.



Lemma search_eq (query first : string) (rest : list string) :
  Searcher._preprocess_query self query = first :: rest ->
  Searcher.search self query
  = Searcher.fetch_results self
      (elements (Searcher.result_doc_ids self first rest)).
Proof.
  intros Hq. unfold Searcher.search. rewrite Hq.
  destruct (decide (Searcher.result_doc_ids self first rest = ∅)) as [Hemp|Hne].
  - rewrite Hemp, elements_empty. reflexivity.
  - rewrite sorted_doc_ids_eq by discriminate. reflexivity.
Qed.
End Retrieval.

(** C1. For a query whose tokenization is [first :: rest], a document id
    is a candidate of [search] exactly when it is in the posting list of
    every query term; a term that the index does not have makes the
    candidate set, and the result of [search], empty; and [search]
    returns the rows of exactly these candidates. *)
Theorem search_candidates_are_intersection
  (self : Searcher.t) (query first : string) (rest : list string) :
  Searcher._preprocess_query self query = first :: rest ->
  (forall d : Z,
      d ∈ Searcher.result_doc_ids self first rest
      <-> forall word, word ∈ first :: rest -> d ∈ Searcher.postings self word)
  /\ ((exists word, word ∈ first :: rest
                    /\ Py.Dict.get (Searcher.inverted_index self) word = None) ->
      Searcher.result_doc_ids self first rest = ∅
      /\ Searcher.search self query = [])
  /\ Searcher.search self query
     = Searcher.fetch_results self
         (elements (Searcher.result_doc_ids self first rest)).
Proof.
  intros Hq. split; [|split].
  - intros d. apply result_doc_ids_spec.
  - intros (word & Hin & Habsent).
    assert (Hemp : Searcher.result_doc_ids self first rest = ∅).
    { apply set_eq. intros d. rewrite result_doc_ids_spec. split.
      - intros Hall. specialize (Hall word Hin).
        unfold Searcher.postings in Hall. rewrite Habsent in Hall.
        apply elem_of_nil in Hall. destruct Hall.
      - intros Hd. apply not_elem_of_empty in Hd. destruct Hd. }
    split; [exact Hemp|].
    rewrite (search_eq self query first rest Hq), Hemp, elements_empty.
    reflexivity.
  - apply search_eq, Hq.
Qed.

Lemma search_candidates_are_intersection_witness :
  Searcher.search Scenario.three_docs_searcher "cats unicorns" = [].
Proof.
  destruct (search_candidates_are_intersection
              Scenario.three_docs_searcher "cats unicorns" "cats" ["unicorns"])
    as (_ & Habsent & _).
  - vm_compute. reflexivity.
  - apply Habsent. exists "unicorns". split.
    + apply list_elem_of_further, list_elem_of_here.
    + vm_compute. reflexivity.
Defined.

(** C5. For a query whose tokenization is [first :: rest] and whose
    candidate set is not empty, every candidate gets the score
    [length (first :: rest)], nothing else gets a score, and sorting by
    score leaves the candidates in the order in which the set was
    iterated. *)
Theorem search_scores_identical
  (self : Searcher.t) (query first : string) (rest : list string) :
  Searcher._preprocess_query self query = first :: rest ->
  Searcher.result_doc_ids self first rest <> ∅ ->
  (forall d : Z,
      d ∈ Searcher.result_doc_ids self first rest ->
      Py.Dict.get
        (Searcher.doc_scores (Searcher.result_doc_ids self first rest)
                             (first :: rest)) d
      = Some (Z.of_nat (length (first :: rest))))
  /\ Py.Dict.keys
       (Searcher.doc_scores (Searcher.result_doc_ids self first rest)
                            (first :: rest))
     = elements (Searcher.result_doc_ids self first rest)
  /\ Searcher.sorted_doc_ids
       (Searcher.doc_scores (Searcher.result_doc_ids self first rest)
                            (first :: rest))
     = elements (Searcher.result_doc_ids self first rest).
Proof.
  intros _ _. split; [|split].
  - intros d Hd. rewrite doc_scores_eq by discriminate.
    apply get_constant_scores, elem_of_elements, Hd.
  - rewrite doc_scores_eq by discriminate. apply keys_constant_scores.
  - apply sorted_doc_ids_eq. discriminate.
Qed.

Lemma search_scores_identical_witness :
  Py.Dict.get
    (Searcher.doc_scores
       (Searcher.result_doc_ids Scenario.three_docs_searcher "cats" ["dogs"])
       ["cats"; "dogs"]) 1
  = Some 2.
Proof.
  destruct (search_scores_identical
              Scenario.three_docs_searcher "cats dogs" "cats" ["dogs"])
    as (Hscore & _ & _).
  - vm_compute. reflexivity.
  - vm_compute. discriminate.
  - apply Hscore. vm_compute. reflexivity.
Defined.


(** The stale index of the scenario: ids 1 and 9 survive the
    intersection, id 9 has no row, and the row of id 1 is returned. *)
Example search_stale_index :
  Searcher.candidates Scenario.stale_searcher "cats dogs" = {[1; 9]}
  /\ select_by_id (Searcher.conn Scenario.stale_searcher) 9 = None
  /\ Searcher.search Scenario.stale_searcher "cats dogs"
     = [("http://a.test/1", "cats and dogs are friends...")].
Proof. repeat split; vm_compute; reflexivity. Qed.

(** The end-to-end scenario of the design document. *)
Example search_cats_dogs :
  Searcher.search Scenario.three_docs_searcher "cats dogs"
  = [("http://a.test/1", "cats and dogs are friends...")].
Proof. vm_compute. reflexivity. Qed.

(** C6. The indexer, before and after [build_index], and a searcher
    loaded from any index file turn every text into the same sequence of
    terms. *)
Theorem preprocess_text_preprocess_query_agree
  (db db' : database) (index_file : Json.text) (searcher : Searcher.t)
  (text : string) :
  Searcher.init db' index_file = Some searcher ->
  Indexer._preprocess_text (Indexer.init db) text
  = Searcher._preprocess_query searcher text
  /\ Indexer._preprocess_text (Indexer.build_index (Indexer.init db)) text
     = Searcher._preprocess_query searcher text.
Proof.
  unfold Searcher.init. intros Hinit.
  destruct (Json.load index_file) as [idx|]; [|discriminate].
  injection Hinit as <-.
  split; reflexivity.
Qed.

Lemma preprocess_text_preprocess_query_agree_witness :
  Indexer._preprocess_text (Indexer.init Scenario.three_docs) "The Cat sat."
  = Searcher._preprocess_query Scenario.three_docs_searcher "The Cat sat.".
Proof.
  apply (preprocess_text_preprocess_query_agree
           Scenario.three_docs Scenario.three_docs
           (Indexer.save_index Scenario.three_docs_index)).
  vm_compute. reflexivity.
Defined.

(* ===================================================================== *)
(** * Tokenization *)
(* ===================================================================== *)

Lemma keep_char_lower (c : ascii) :
  Py.keep_char (Py.lower_char c) = Spec.keep (Py.lower_char c).
Proof. destruct c as [[] [] [] [] [] [] [] []]; reflexivity. Qed.

(** On lowercased text, deleting what is outside [a-z0-9\s] and deleting
    what is no ASCII letter, digit or white space are the same. *)
Lemma re_sub_lower_normalize (text : string) :
  Py.re_sub_non_alnum_space (Py.lower text) = Spec.normalize text.
Proof.
  unfold Py.re_sub_non_alnum_space, Spec.normalize, Py.lower.
  induction text as [|c text IH]; simpl; [reflexivity|].
  rewrite keep_char_lower, IH. reflexivity.
Qed.

Lemma split_contraction_none (tokens : list string) :
  (forall token, token ∈ tokens -> Py.Dict.get NLTK.contractions2 token = None) ->
  flat_map NLTK.split_contraction tokens = tokens.
Proof.
  induction tokens as [|w tokens IH]; intros Hnone; simpl; [reflexivity|].
  unfold NLTK.split_contraction at 1.
  rewrite (Hnone w) by apply list_elem_of_here. simpl. f_equal.
  apply IH. intros token Hin. apply Hnone, list_elem_of_further, Hin.
Qed.

Lemma contractions_are_no_stopwords :
  Forall (fun w => w ∉ NLTK.stopwords_english) (Py.Dict.keys NLTK.contractions2).
Proof. apply (bool_decide_unpack _). vm_compute. exact I. Qed.

Lemma stopword_is_no_contraction (token : string) :
  token ∈ NLTK.stopwords_english -> Py.Dict.get NLTK.contractions2 token = None.
Proof.
  intros Hstop. apply dict_get_None. intros Hin.
  pose proof contractions_are_no_stopwords as Hall.
  rewrite Forall_forall in Hall. exact (Hall token Hin Hstop).
Qed.

Lemma filter_stopwords_set (tokens : list string) :
  filter (fun word => word ∉ (list_to_set NLTK.stopwords_english : gset string))
         tokens
  = filter (fun token => token ∉ NLTK.stopwords_english) tokens.
Proof.
  apply list_filter_iff. intros w. rewrite elem_of_list_to_set. reflexivity.
Qed.

Lemma filter_all_stopwords (tokens : list string) :
  (forall token, token ∈ tokens -> token ∈ NLTK.stopwords_english) ->
  filter (fun token => token ∉ NLTK.stopwords_english) tokens = [].
Proof.
  induction tokens as [|w tokens IH]; intros Hall; [reflexivity|].
  rewrite filter_cons_False.
  - apply IH. intros token Hin. apply Hall, list_elem_of_further, Hin.
  - intros Hn. apply Hn, Hall, list_elem_of_here.
Qed.

Lemma preprocess_text_unfold (db : database) (text : string) :
  Indexer._preprocess_text (Indexer.init db) text
  = filter (fun token => token ∉ NLTK.stopwords_english)
      (flat_map NLTK.split_contraction (Py.split (Spec.normalize text))).
Proof.
  unfold Indexer._preprocess_text, Indexer.init, Indexer.stop_words,
    NLTK.word_tokenize.
  rewrite re_sub_lower_normalize. apply filter_stopwords_set.
Qed.

(** C7, as the code has it. [_preprocess_text] is the reference pipeline
    with one more step: after the split on white space, the tokenizer
    breaks each of the words cannot, gimme, gonna, gotta, lemme and wanna
    in two. It equals the reference pipeline on every text that has none
    of these words; the empty text yields no term; and a text whose
    normalized tokens are all stopwords yields no term. *)
Theorem preprocess_text_reference (db : database) (text : string) :
  Indexer._preprocess_text (Indexer.init db) text
  = filter (fun token => token ∉ NLTK.stopwords_english)
      (flat_map NLTK.split_contraction (Py.split (Spec.normalize text)))
  /\ ((forall token, token ∈ Py.split (Spec.normalize text) ->
                     Py.Dict.get NLTK.contractions2 token = None) ->
      Indexer._preprocess_text (Indexer.init db) text = Spec.tokenize text)
  /\ Indexer._preprocess_text (Indexer.init db) "" = []
  /\ ((forall token, token ∈ Py.split (Spec.normalize text) ->
                     token ∈ NLTK.stopwords_english) ->
      Indexer._preprocess_text (Indexer.init db) text = []).
Proof.
  split; [apply preprocess_text_unfold|]. split; [|split].
  - intros Hnone. rewrite preprocess_text_unfold, split_contraction_none by exact Hnone.
    reflexivity.
  - reflexivity.
  - intros Hstop. rewrite preprocess_text_unfold, split_contraction_none.
    + apply filter_all_stopwords, Hstop.
    + intros token Hin. apply stopword_is_no_contraction, Hstop, Hin.
Qed.

Lemma preprocess_text_reference_witness :
  Indexer._preprocess_text (Indexer.init Scenario.empty_store) "The Cat sat."
  = Spec.tokenize "The Cat sat."
  /\ Indexer._preprocess_text (Indexer.init Scenario.empty_store) "the is at" = [].
Proof.
  split.
  - apply (preprocess_text_reference Scenario.empty_store "The Cat sat.").
    apply Forall_forall. apply (bool_decide_unpack _). vm_compute. exact I.
  - apply (preprocess_text_reference Scenario.empty_store "the is at").
    apply Forall_forall. apply (bool_decide_unpack _). vm_compute. exact I.
Defined.

(** C7 as stated fails: the word cannot is one token of the reference
    pipeline and no stopword, while the tokenizer of the code breaks it
    into can and not, which are both stopwords. *)
Lemma preprocess_text_reference_counterexample :
  Indexer._preprocess_text (Indexer.init Scenario.empty_store) "I cannot" = []
  /\ Spec.tokenize "I cannot" = ["cannot"]
  /\ ~ (forall text,
           Indexer._preprocess_text (Indexer.init Scenario.empty_store) text
           = Spec.tokenize text).
Proof.
  assert (Hcode : Indexer._preprocess_text (Indexer.init Scenario.empty_store) "I cannot" = [])
    by (vm_compute; reflexivity).
  assert (Hspec : Spec.tokenize "I cannot" = ["cannot"]) by (vm_compute; reflexivity).
  split; [exact Hcode|]. split; [exact Hspec|].
  intros Hall. specialize (Hall "I cannot"). rewrite Hcode, Hspec in Hall.
  discriminate.
Qed.

(** Case and punctuation do not matter. *)
Example preprocess_text_cat_sat :
  Indexer._preprocess_text (Indexer.init Scenario.empty_store) "The Cat sat."
  = Indexer._preprocess_text (Indexer.init Scenario.empty_store) "the cat sat".
Proof. vm_compute. reflexivity. Qed.

(* ===================================================================== *)
(** * The crawl loop *)
(* ===================================================================== *)

Section CrawlLoop.
Variable w : Crawler.world.

(** [_can_fetch] touches nothing but the cache of parsers. *)
Lemma can_fetch_frame (now : nat) (c c' : Crawler.t) (url : string) (b : bool) :
  Crawler._can_fetch w now c url = (b, c') ->
  Crawler.conn c' = Crawler.conn c
  /\ Crawler.queue c' = Crawler.queue c
  /\ Crawler.visited_urls c' = Crawler.visited_urls c.
Proof.
  unfold Crawler._can_fetch. cbv zeta. intros Hcf.
  destruct (Crawler.robot_parsers c !! Crawler.base_url w url) as [rp|].
  - injection Hcf as _ <-. auto.
  - destruct (Crawler.robots_read w now (Crawler.base_url w url)) as [rp|];
      injection Hcf as _ <-; auto.
Qed.

(** A read of robots.txt that raises answers [False] and leaves the
    crawler as it was. *)
Lemma can_fetch_unreadable (now : nat) (c : Crawler.t) (url : string) :
  Crawler.robot_parsers c !! Crawler.base_url w url = None ->
  Crawler.robots_read w now (Crawler.base_url w url) = None ->
  Crawler._can_fetch w now c url = (false, c).
Proof.
  unfold Crawler._can_fetch. intros Hcache Hread. cbv zeta.
  rewrite Hcache, Hread. reflexivity.
Qed.

(** The cache only changes at the base URL that was asked about, and
    only through a read that succeeded. *)
Lemma can_fetch_cache (now : nat) (c c' : Crawler.t) (url : string) (b : bool)
      (host : string) :
  Crawler._can_fetch w now c url = (b, c') ->
  Crawler.robot_parsers c !! host = None ->
  Crawler.robots_read w now host = None ->
  Crawler.robot_parsers c' !! host = None
  /\ (Crawler.base_url w url = host -> b = false).
Proof.
  unfold Crawler._can_fetch. cbv zeta. intros Hcf Hcache Hread.
  destruct (decide (Crawler.base_url w url = host)) as [Heq|Hne].
  - rewrite Heq, Hcache, Hread in Hcf. injection Hcf as <- <-. auto.
  - split; [|congruence].
    destruct (Crawler.robot_parsers c !! Crawler.base_url w url) as [rp|].
    + injection Hcf as _ <-. exact Hcache.
    + destruct (Crawler.robots_read w now (Crawler.base_url w url)) as [rp|];
        injection Hcf as _ <-; [|exact Hcache].
      simpl. rewrite lookup_insert_ne by exact Hne. exact Hcache.
Qed.

Lemma store_page_frame (c : Crawler.t) (url html text : string) :
  Crawler.queue (Crawler._store_page c url html text) = Crawler.queue c
  /\ Crawler.visited_urls (Crawler._store_page c url html text)
     = Crawler.visited_urls c
  /\ Crawler.robot_parsers (Crawler._store_page c url html text)
     = Crawler.robot_parsers c.
Proof.
  unfold Crawler._store_page.
  destruct (insert_page (Crawler.conn c) url html text); auto.
Qed.

(** [_store_page] adds at most one row, and a row it adds has the URL
    it was given. *)
Lemma store_page_rows (c : Crawler.t) (url html text : string) :
  pages (Crawler.conn (Crawler._store_page c url html text))
  = pages (Crawler.conn c)
  \/ exists p, page_url p = url
               /\ pages (Crawler.conn (Crawler._store_page c url html text))
                  = pages (Crawler.conn c) ++ [p].
Proof.
  unfold Crawler._store_page, insert_page.
  destruct (has_url (Crawler.conn c) url); [left; reflexivity|].
  right. eexists. split; [|reflexivity]. reflexivity.
Qed.

(** What the [try] block can do to the store and to the counter. *)
Lemma try_block_cases (now : nat) (c c' : Crawler.t) (url : string)
      (crawled crawled' : Z) :
  Crawler.try_block w now c url crawled = (c', crawled') ->
  Crawler.robot_parsers c' = Crawler.robot_parsers c
  /\ Crawler.visited_urls c' = Crawler.visited_urls c
  /\ ((c' = c /\ crawled' = crawled)
      \/ (crawled' = crawled + 1
          /\ (pages (Crawler.conn c') = pages (Crawler.conn c)
              \/ exists p, page_url p = url
                           /\ pages (Crawler.conn c')
                              = pages (Crawler.conn c) ++ [p]))).
Proof.
  unfold Crawler.try_block. intros Htry.
  destruct (Crawler.requests_get w now url) as [response|];
    [|injection Htry as <- <-; auto].
  destruct (negb (Crawler.status_code response =? 200));
    [injection Htry as <- <-; auto|].
  destruct (Crawler.parse_html w (Crawler.text response)) as [soup|];
    [|injection Htry as <- <-; auto].
  injection Htry as <- <-. simpl.
  destruct (store_page_frame c url (Crawler.text response) (Crawler.get_text soup))
    as (_ & Hv & Hr).
  split; [exact Hr|]. split; [exact Hv|]. right. split; [reflexivity|].
  apply store_page_rows.
Qed.

(** One iteration either leaves store and counter alone and shortens
    the queue, or counts one page and adds at most one row, whose URL is
    the one that was popped and that [_can_fetch] allowed. *)
Lemma iteration_cases (st : Crawler.loop_state) (url : string)
      (rest : list string) :
  Crawler.queue (Crawler.self st) = url :: rest ->
  let st' := Crawler.iteration w st url rest in
  (pages (Crawler.conn (Crawler.self st')) = pages (Crawler.conn (Crawler.self st))
   /\ Crawler.pages_crawled st' = Crawler.pages_crawled st
   /\ Crawler.queue (Crawler.self st') = rest)
  \/ (Crawler.pages_crawled st' = Crawler.pages_crawled st + 1
      /\ fst (Crawler._can_fetch w (Crawler.clock st)
                (Crawler.with_queue (Crawler.self st) rest) url) = true
      /\ (pages (Crawler.conn (Crawler.self st'))
          = pages (Crawler.conn (Crawler.self st))
          \/ exists p, page_url p = url
                       /\ pages (Crawler.conn (Crawler.self st'))
                          = pages (Crawler.conn (Crawler.self st)) ++ [p])).
Proof.
  intros Hq. unfold Crawler.iteration. cbv zeta.
  destruct (bool_decide _); [left; auto|].
  destruct (Crawler._can_fetch w (Crawler.clock st)
              (Crawler.with_queue (Crawler.self st) rest) url)
    as [allowed checked] eqn:Hcf.
  destruct (can_fetch_frame _ _ _ _ _ Hcf) as (Hconn & Hqueue & _).
  simpl in Hconn, Hqueue.
  destruct allowed; simpl negb; cbv iota;
    [|left; simpl; rewrite Hconn, Hqueue; auto].
  destruct (Crawler.try_block w (Crawler.clock st) _ url (Crawler.pages_crawled st))
    as [c' crawled'] eqn:Htry.
  destruct (try_block_cases _ _ _ _ _ _ Htry) as (_ & _ & [[-> ->]|[-> Hrows]]).
  - left. simpl. rewrite Hconn, Hqueue. auto.
  - right. simpl. split; [reflexivity|]. split; [reflexivity|].
    simpl in Hrows. rewrite Hconn in Hrows. exact Hrows.
Qed.

(** The loop goes on exactly while the queue is not empty and fewer
    than [max_pages] pages have been counted. *)
Lemma crawl_step_None (max_pages : Z) (st : Crawler.loop_state) :
  Crawler.crawl_step w max_pages st = None
  <-> Crawler.queue (Crawler.self st) = []
      \/ max_pages <= Crawler.pages_crawled st.
Proof.
  unfold Crawler.crawl_step.
  destruct (Crawler.queue (Crawler.self st)) as [|url rest].
  - split; auto.
  - destruct (Z.ltb_spec (Crawler.pages_crawled st) max_pages).
    + split; [discriminate | intros [?|?]; [discriminate | lia]].
    + split; auto.
Qed.

Lemma crawl_step_Some (max_pages : Z) (st st' : Crawler.loop_state) :
  Crawler.crawl_step w max_pages st = Some st' ->
  exists url rest,
    Crawler.queue (Crawler.self st) = url :: rest
    /\ Crawler.pages_crawled st < max_pages
    /\ st' = Crawler.iteration w st url rest.
Proof.
  unfold Crawler.crawl_step.
  destruct (Crawler.queue (Crawler.self st)) as [|url rest]; [discriminate|].
  destruct (Z.ltb_spec (Crawler.pages_crawled st) max_pages); [|discriminate].
  intros [= <-]. eauto.
Qed.

(** Termination: the pair of the pages still allowed and the length of
    the queue decreases lexicographically. *)
Lemma crawl_loop_terminates_aux (max_pages : Z) (n : nat) :
  forall (m : nat) (st : Crawler.loop_state),
    (Z.to_nat (max_pages - Crawler.pages_crawled st) <= n)%nat ->
    (length (Crawler.queue (Crawler.self st)) <= m)%nat ->
    exists fuel final, Crawler.crawl_loop w max_pages fuel st = Some final.
Proof.
  induction n as [|n IHn].
  - intros m st Hn _. exists O, st. simpl.
    assert (Hstop : Crawler.crawl_step w max_pages st = None)
      by (apply crawl_step_None; right; lia).
    rewrite Hstop. reflexivity.
  - induction m as [|m IHm]; intros st Hn Hm.
    + exists O, st. simpl.
      assert (Hstop : Crawler.crawl_step w max_pages st = None).
      { apply crawl_step_None. left.
        destruct (Crawler.queue (Crawler.self st)); [reflexivity | simpl in Hm; lia]. }
      rewrite Hstop. reflexivity.
    + destruct (Crawler.crawl_step w max_pages st) as [st'|] eqn:Hstep.
      * destruct (crawl_step_Some _ _ _ Hstep) as (url & rest & Hq & Hlt & ->).
        destruct (iteration_cases st url rest Hq) as [(_ & Hpc & Hq')|(Hpc & _)].
        -- destruct (IHm (Crawler.iteration w st url rest)) as (fuel & final & Hrun).
           ++ rewrite Hpc. exact Hn.
           ++ rewrite Hq'. rewrite Hq in Hm. simpl in Hm. lia.
           ++ exists (S fuel), final. simpl. rewrite Hstep. exact Hrun.
        -- destruct (IHn (length (Crawler.queue
                                    (Crawler.self (Crawler.iteration w st url rest))))
                         (Crawler.iteration w st url rest))
             as (fuel & final & Hrun).
           ++ rewrite Hpc. lia.
           ++ lia.
           ++ exists (S fuel), final. simpl. rewrite Hstep. exact Hrun.
      * exists O, st. simpl. rewrite Hstep. reflexivity.
Qed.

Lemma crawl_loop_terminates (max_pages : Z) (st : Crawler.loop_state) :
  exists fuel final, Crawler.crawl_loop w max_pages fuel st = Some final.
Proof.
  apply (crawl_loop_terminates_aux max_pages
           (Z.to_nat (max_pages - Crawler.pages_crawled st))
           (length (Crawler.queue (Crawler.self st)))); lia.
Qed.

(** A property that every iteration keeps holds when the loop ends, and
    the loop test is false there. *)
Lemma crawl_loop_invariant (max_pages : Z) (Inv : Crawler.loop_state -> Prop) :
  (forall st st', Inv st -> Crawler.crawl_step w max_pages st = Some st' -> Inv st') ->
  forall fuel st final,
    Inv st ->
    Crawler.crawl_loop w max_pages fuel st = Some final ->
    Inv final /\ Crawler.crawl_step w max_pages final = None.
Proof.
  intros Hkeep. induction fuel as [|fuel IH]; intros st final Hinv Hrun; simpl in Hrun.
  - destruct (Crawler.crawl_step w max_pages st) eqn:Hstep; [discriminate|].
    injection Hrun as <-. auto.
  - destruct (Crawler.crawl_step w max_pages st) as [st'|] eqn:Hstep.
    + apply (IH st' final); [eapply Hkeep; eauto | exact Hrun].
    + injection Hrun as <-. auto.
Qed.
End CrawlLoop.

(** C4, as the code has it. For every world, store, list of seeds and
    [max_pages], the loop of [crawl] ends; it ends exactly when the
    queue is empty or [max_pages] pages have been counted, where a page
    is counted when it was fetched and handed to the store, whether or
    not the store took it; and the rows added by the run are at most the
    pages counted, which are at most [max_pages] (or none when
    [max_pages] is negative). *)
Theorem crawl_terminates_within_cap
  (w : Crawler.world) (db : database) (seed_urls : list string)
  (max_pages : Z) :
  (exists fuel final,
      Crawler.crawl w fuel (Crawler.init db seed_urls) max_pages = Some final)
  /\ (forall fuel final,
         Crawler.crawl w fuel (Crawler.init db seed_urls) max_pages = Some final ->
         (Crawler.queue (Crawler.self final) = []
          \/ max_pages <= Crawler.pages_crawled final)
         /\ Z.of_nat (length (pages (Crawler.conn (Crawler.self final))))
            - Z.of_nat (length (pages db))
            <= Crawler.pages_crawled final
         /\ Crawler.pages_crawled final <= Z.max 0 max_pages)
  /\ (forall st,
         Crawler.crawl_step w max_pages st = None
         <-> Crawler.queue (Crawler.self st) = []
             \/ max_pages <= Crawler.pages_crawled st).
Proof.
  split; [apply crawl_loop_terminates|]. split; [|apply crawl_step_None].
  intros fuel final Hrun.
  pose (Inv := fun st : Crawler.loop_state =>
          Z.of_nat (length (pages (Crawler.conn (Crawler.self st))))
          - Z.of_nat (length (pages db)) <= Crawler.pages_crawled st
          /\ Crawler.pages_crawled st <= Z.max 0 max_pages).
  assert (Hkeep : forall st st', Inv st ->
            Crawler.crawl_step w max_pages st = Some st' -> Inv st').
  { intros st st' (Hrows & Hcap) Hstep.
    destruct (crawl_step_Some _ _ _ _ Hstep) as (url & rest & Hq & Hlt & ->).
    destruct (iteration_cases w st url rest Hq)
      as [(Hp & Hpc & _)|(Hpc & _ & [Hp|(p & _ & Hp)])];
      unfold Inv; rewrite Hpc, Hp; try rewrite length_app; simpl; lia. }
  unfold Crawler.crawl in Hrun.
  destruct (crawl_loop_invariant w max_pages Inv Hkeep fuel
              (Crawler.Loop (Crawler.init db seed_urls) 0 O) final)
    as ((Hrows & Hcap) & Hstop).
  - unfold Inv. simpl. lia.
  - exact Hrun.
  - split; [eapply crawl_step_None, Hstop | auto].
Qed.

Lemma crawl_terminates_within_cap_witness :
  exists fuel final,
    Crawler.crawl Scenario.linked_web fuel
      (Crawler.init Scenario.empty_store ["http://a.test/"]) 2 = Some final.
Proof.
  apply (crawl_terminates_within_cap Scenario.linked_web
           Scenario.empty_store ["http://a.test/"] 2).
Defined.

(** The linked web of the scenario with a cap of two pages: both pages
    are stored and the queue still holds the links found. *)
Example crawl_linked_web :
  match Crawler.crawl Scenario.linked_web 10
          (Crawler.init Scenario.empty_store ["http://a.test/"]) 2 with
  | Some final =>
      map page_url (pages (Crawler.conn (Crawler.self final)))
      = ["http://a.test/"; "https://b.test/"]
      /\ Crawler.queue (Crawler.self final)
         = ["http://a.test/"; "https://b.test/"]
      /\ Crawler.pages_crawled final = 2
  | None => False
  end.
Proof. vm_compute. repeat split. Qed.

(** C4 as stated fails: on a store that holds the first seed already,
    [crawl] with a cap of one page ends with the second seed still in the
    queue and without having stored any document. *)
Lemma crawl_terminates_counterexample :
  match Crawler.crawl Scenario.open_web 10
          (Crawler.self Scenario.rerun_start) 1 with
  | Some final =>
      Crawler.queue (Crawler.self final) = ["http://b.test/"]
      /\ pages (Crawler.conn (Crawler.self final)) = pages Scenario.earlier_run
      /\ (length (pages Scenario.earlier_run) = 1)%nat
  | None => False
  end.
Proof. vm_compute. repeat split. Qed.

(** C8, as the code has it. When the store rejects the insert of a page
    that was fetched and parsed, the loop goes on: the store is
    unchanged, the links of the page are enqueued, the URL is marked
    visited, and the counter that is compared with [max_pages] is
    incremented all the same. *)
Theorem rejected_insert_counts_as_crawled
  (w : Crawler.world) (max_pages : Z) (st : Crawler.loop_state)
  (url : string) (rest : list string) (checked : Crawler.t)
  (response : Crawler.response) (soup : Crawler.soup) :
  Crawler.queue (Crawler.self st) = url :: rest ->
  Crawler.pages_crawled st < max_pages ->
  url ∉ Crawler.visited_urls (Crawler.self st) ->
  Crawler._can_fetch w (Crawler.clock st)
    (Crawler.with_queue (Crawler.self st) rest) url = (true, checked) ->
  Crawler.requests_get w (Crawler.clock st) url = Some response ->
  Crawler.status_code response = 200 ->
  Crawler.parse_html w (Crawler.text response) = Some soup ->
  insert_page (Crawler.conn (Crawler.self st)) url
    (Crawler.text response) (Crawler.get_text soup) = None ->
  exists st',
    Crawler.crawl_step w max_pages st = Some st'
    /\ Crawler.conn (Crawler.self st') = Crawler.conn (Crawler.self st)
    /\ Crawler.pages_crawled st' = Crawler.pages_crawled st + 1
    /\ Crawler.queue (Crawler.self st')
       = Crawler.enqueue_links w url rest (Crawler.hrefs soup)
    /\ Crawler.visited_urls (Crawler.self st')
       = {[url]} ∪ Crawler.visited_urls (Crawler.self st).
Proof.
  intros Hq Hlt Hnew Hcf Hget Hstatus Hparse Hinsert.
  destruct (can_fetch_frame _ _ _ _ _ _ Hcf) as (Hconn & Hqueue & Hvisited).
  simpl in Hconn, Hqueue, Hvisited.
  eexists. split.
  - unfold Crawler.crawl_step. rewrite Hq.
    apply Z.ltb_lt in Hlt. rewrite Hlt. reflexivity.
  - unfold Crawler.iteration. cbv zeta. simpl Crawler.visited_urls.
    rewrite bool_decide_eq_false_2 by exact Hnew.
    rewrite Hcf. simpl negb. cbv iota.
    unfold Crawler.try_block. rewrite Hget, Hstatus. simpl negb. cbv iota.
    rewrite Hparse. cbv zeta. unfold Crawler._store_page.
    simpl Crawler.conn. rewrite Hconn, Hinsert. simpl.
    rewrite Hconn, Hqueue, Hvisited. auto.
Qed.

Lemma rejected_insert_counts_as_crawled_witness :
  exists st',
    Crawler.crawl_step Scenario.open_web 1 Scenario.rerun_start = Some st'
    /\ Crawler.conn (Crawler.self st') = Scenario.earlier_run
    /\ Crawler.pages_crawled st' = 0 + 1
    /\ Crawler.queue (Crawler.self st')
       = Crawler.enqueue_links Scenario.open_web "http://a.test/"
           ["http://b.test/"] []
    /\ Crawler.visited_urls (Crawler.self st') = {[ "http://a.test/" ]} ∪ ∅.
Proof.
  apply (rejected_insert_counts_as_crawled Scenario.open_web 1
           Scenario.rerun_start "http://a.test/" ["http://b.test/"]
           (snd (Crawler._can_fetch Scenario.open_web O
                   (Crawler.with_queue (Crawler.self Scenario.rerun_start)
                      ["http://b.test/"]) "http://a.test/"))
           (Crawler.Response 200 "<html></html>") (Crawler.Soup "" [])).
  - reflexivity.
  - simpl. lia.
  - simpl. apply not_elem_of_empty.
  - reflexivity.
  - reflexivity.
  - reflexivity.
  - reflexivity.
  - reflexivity.
Defined.

(** C8 as stated fails: the insert of the first seed is rejected, and
    the counter goes from 0 to 1. *)
Lemma rejected_insert_counterexample :
  insert_page (Crawler.conn (Crawler.self Scenario.rerun_start))
    "http://a.test/" "<html></html>" "" = None
  /\ Crawler.pages_crawled Scenario.rerun_start = 0
  /\ option_map Crawler.pages_crawled
       (Crawler.crawl_step Scenario.open_web 1 Scenario.rerun_start)
     = Some 1.
Proof. vm_compute. repeat split. Qed.

(** C2, as the code has it. A read of robots.txt that raises makes that
    one query answer [False] and caches nothing; the next query for the
    host therefore reads again, and when that read succeeds it answers
    what the parser says and caches the parser. If every read for a host
    raises, every query for a URL of that host answers [False], the
    cache never gets an entry for the host, and no run of [crawl] adds a
    row whose URL is on that host. *)
Theorem unreadable_robots_fail_closed
  (w : Crawler.world) (db : database) (seed_urls : list string)
  (max_pages : Z) (host : string) :
  (forall now c url,
      Crawler.base_url w url = host ->
      Crawler.robot_parsers c !! host = None ->
      Crawler.robots_read w now host = None ->
      Crawler._can_fetch w now c url = (false, c))
  /\ (forall now now' c url url' rp,
         Crawler.base_url w url = host ->
         Crawler.base_url w url' = host ->
         Crawler.robot_parsers c !! host = None ->
         Crawler.robots_read w now host = None ->
         Crawler.robots_read w now' host = Some rp ->
         Crawler._can_fetch w now'
           (snd (Crawler._can_fetch w now c url)) url'
         = (rp url',
            Crawler.with_parsers c (<[host := rp]> (Crawler.robot_parsers c))))
  /\ ((forall now, Crawler.robots_read w now host = None) ->
      forall fuel final,
        Crawler.crawl w fuel (Crawler.init db seed_urls) max_pages = Some final ->
        Crawler.robot_parsers (Crawler.self final) !! host = None
        /\ forall p, p ∈ pages (Crawler.conn (Crawler.self final)) ->
                     p ∈ pages db \/ Crawler.base_url w (page_url p) <> host).
Proof.
  split; [|split].
  - intros now c url <- Hcache Hread. apply can_fetch_unreadable; assumption.
  - intros now now' c url url' rp Hurl Hurl' Hcache Hread Hread'.
    pose proof (can_fetch_unreadable w now c url) as Hfirst.
    rewrite Hurl in Hfirst. rewrite (Hfirst Hcache Hread).
    unfold Crawler._can_fetch. cbv zeta. simpl snd.
    rewrite Hurl', Hcache, Hread'. reflexivity.
  - intros Hfail fuel final Hrun.
    pose (Inv := fun st : Crawler.loop_state =>
            Crawler.robot_parsers (Crawler.self st) !! host = None
            /\ forall p, p ∈ pages (Crawler.conn (Crawler.self st)) ->
                         p ∈ pages db \/ Crawler.base_url w (page_url p) <> host).
    assert (Hkeep : forall st st', Inv st ->
              Crawler.crawl_step w max_pages st = Some st' -> Inv st').
    { intros st st' (Hcache & Hrows) Hstep.
      destruct (crawl_step_Some _ _ _ _ Hstep) as (url & rest & Hq & _ & ->).
      unfold Inv, Crawler.iteration. cbv zeta.
      destruct (bool_decide _); [simpl; auto|].
      destruct (Crawler._can_fetch w (Crawler.clock st)
                  (Crawler.with_queue (Crawler.self st) rest) url)
        as [allowed checked] eqn:Hcf.
      destruct (can_fetch_frame _ _ _ _ _ _ Hcf) as (Hconn & _ & _).
      destruct (can_fetch_cache _ _ _ _ _ _ host Hcf Hcache (Hfail _))
        as (Hcache' & Hdeny).
      simpl in Hconn.
      destruct allowed; simpl negb; cbv iota;
        [|simpl; rewrite Hconn; auto].
      destruct (Crawler.try_block w (Crawler.clock st) _ url
                  (Crawler.pages_crawled st)) as [c' crawled'] eqn:Htry.
      destruct (try_block_cases _ _ _ _ _ _ _ Htry)
        as (Hparsers & _ & [[-> ->]|[_ Hadded]]); simpl.
      - rewrite Hconn. auto.
      - simpl in Hparsers, Hadded. rewrite Hparsers. split; [exact Hcache'|].
        rewrite Hconn in Hadded.
        destruct Hadded as [->|(p' & Hurl & ->)]; [exact Hrows|].
        intros p Hp. apply elem_of_app in Hp as [Hp|Hp]; [auto|].
        apply list_elem_of_singleton in Hp. subst p. right. rewrite Hurl.
        intros Hhost. specialize (Hdeny Hhost). discriminate. }
    destruct (crawl_loop_invariant w max_pages Inv Hkeep fuel
                (Crawler.Loop (Crawler.init db seed_urls) 0 O) final)
      as (Hinv & _).
    + unfold Inv. simpl. split; [apply lookup_empty | auto].
    + exact Hrun.
    + exact Hinv.
Qed.

Lemma unreadable_robots_fail_closed_witness :
  Crawler._can_fetch Scenario.flaky_robots 0
    (Crawler.init Scenario.empty_store ["http://a.test/"]) "http://a.test/x"
  = (false, Crawler.init Scenario.empty_store ["http://a.test/"])
  /\ Crawler._can_fetch Scenario.flaky_robots 1
       (snd (Crawler._can_fetch Scenario.flaky_robots 0
               (Crawler.init Scenario.empty_store ["http://a.test/"])
               "http://a.test/x"))
       "http://a.test/y"
     = (true,
        Crawler.with_parsers
          (Crawler.init Scenario.empty_store ["http://a.test/"])
          (<["http://a.test" := Scenario.allow_all]> ∅))
  /\ match Crawler.crawl Scenario.no_robots 10
             (Crawler.init Scenario.empty_store ["http://a.test/"]) 5 with
     | Some final =>
         Crawler.robot_parsers (Crawler.self final) !! "http://a.test" = None
     | None => True
     end.
Proof.
  destruct (unreadable_robots_fail_closed Scenario.flaky_robots
              Scenario.empty_store ["http://a.test/"] 5 "http://a.test")
    as (Hfail & Hretry & _).
  destruct (unreadable_robots_fail_closed Scenario.no_robots
              Scenario.empty_store ["http://a.test/"] 5 "http://a.test")
    as (_ & _ & Halways).
  split; [|split].
  - apply Hfail; reflexivity.
  - apply (Hretry 0%nat 1%nat
             (Crawler.init Scenario.empty_store ["http://a.test/"])
             "http://a.test/x" "http://a.test/y" Scenario.allow_all);
      reflexivity.
  - destruct (Crawler.crawl Scenario.no_robots 10
                (Crawler.init Scenario.empty_store ["http://a.test/"]) 5)
      as [final|] eqn:Hrun; [|exact I].
    apply (Halways (fun now => eq_refl) 10%nat final Hrun).
Defined.

(** C2 as stated fails: after a first read of robots.txt that raised, the
    cache has no entry for the host, the query of the next iteration
    answers [True], and a seed that is in the queue twice is stored. *)
Lemma unreadable_robots_counterexample :
  Crawler.robots_read Scenario.flaky_robots 0 "http://a.test" = None
  /\ Crawler._can_fetch Scenario.flaky_robots 0
       (Crawler.init Scenario.empty_store []) "http://a.test/"
     = (false, Crawler.init Scenario.empty_store [])
  /\ fst (Crawler._can_fetch Scenario.flaky_robots 1
            (Crawler.init Scenario.empty_store []) "http://a.test/") = true
  /\ match Crawler.crawl Scenario.flaky_robots 10
             (Crawler.init Scenario.empty_store
                ["http://a.test/"; "http://a.test/"]) 5 with
     | Some final =>
         map page_url (pages (Crawler.conn (Crawler.self final)))
         = ["http://a.test/"]
     | None => False
     end.
Proof. repeat split; vm_compute; reflexivity. Qed.

(** C3, as the code has it. The anchors of a page whose [urljoin]
    succeeds are appended to the tail of the queue in document order,
    each one exactly when it starts with http; no link is compared with
    the visited set or with the queue. *)
Theorem enqueue_links_appends
  (w : Crawler.world) (url : string) (queue hrefs links : list string) :
  Forall2 (fun href link => Crawler.urljoin w url href = Some link) hrefs links ->
  Crawler.enqueue_links w url queue hrefs
  = queue ++ filter (fun link => Py.startswith link "http" = true) links.
Proof.
  intros Hjoin. revert queue.
  induction Hjoin as [|href link hrefs links Hlink _ IH]; intros queue; simpl.
  - rewrite app_nil_r. reflexivity.
  - rewrite Hlink, IH. unfold Crawler.enqueue.
    destruct (Py.startswith link "http") eqn:Hhttp.
    + rewrite filter_cons_True by exact Hhttp. rewrite <- app_assoc. reflexivity.
    + rewrite filter_cons_False by congruence. reflexivity.
Qed.

Lemma enqueue_links_appends_witness :
  Crawler.enqueue_links Scenario.linked_web "http://a.test/"
    ["https://b.test/"]
    ["http://a.test/"; "mailto:x@a.test"; "https://b.test/"]
  = ["https://b.test/"] ++ ["http://a.test/"; "https://b.test/"].
Proof.
  apply (enqueue_links_appends Scenario.linked_web "http://a.test/"
           ["https://b.test/"]
           ["http://a.test/"; "mailto:x@a.test"; "https://b.test/"]
           ["http://a.test/"; "mailto:x@a.test"; "https://b.test/"]).
  repeat constructor.
Defined.

(** C3 as stated fails: a link that is in the queue already is appended
    once more. *)
Lemma enqueue_counterexample :
  "http://a.test/" ∈ ["http://a.test/"]
  /\ Crawler.enqueue ["http://a.test/"] "http://a.test/"
     = ["http://a.test/"; "http://a.test/"]
  /\ Crawler.enqueue ["http://a.test/"] "http://a.test/" <> ["http://a.test/"].
Proof.
  split; [apply list_elem_of_here|]. split; [reflexivity|]. discriminate.
Qed.

(* ===================================================================== *)
(** * The index file: [json.load] reads back what [json.dump] wrote *)
(* ===================================================================== *)

(** ** Strings *)

Lemma scanstring_escape_char (c : ascii) (rest : Json.text) :
  Json.scanstring (Json.escape_char c ++ rest)
  = '(r, rest') ← Json.scanstring rest; Some (c :: r, rest').
Proof. destruct c as [[] [] [] [] [] [] [] []]; reflexivity. Qed.

Lemma scanstring_escaped (k : list ascii) (rest : Json.text) :
  Json.scanstring (flat_map Json.escape_char k ++ Json.DQUOTE :: rest)
  = Some (k, rest).
Proof.
  induction k as [|c k IH]; [reflexivity|].
  cbn [flat_map]. rewrite <- app_assoc, scanstring_escape_char, IH.
  reflexivity.
Qed.

(** ** Integers *)

Lemma span_digits_of (d : Decimal.uint) (c : ascii) (rest : Json.text) :
  JsonText.after_number c = true ->
  Json.span_digits (JsonText.digits_of d ++ c :: rest) = (JsonText.digits_of d, c :: rest).
Proof.
  intros Hc. unfold JsonText.digits_of.
  induction d as [|d IH|d IH|d IH|d IH|d IH|d IH|d IH|d IH|d IH|d IH];
    try (simpl; simpl in IH; rewrite IH; reflexivity).
  simpl. destruct c as [[] [] [] [] [] [] [] []]; try discriminate Hc; reflexivity.
Qed.

Lemma digits_of_parse (d : Decimal.uint) :
  NilEmpty.uint_of_string (string_of_list_ascii (JsonText.digits_of d)) = Some d.
Proof.
  unfold JsonText.digits_of. rewrite string_of_list_ascii_of_string. apply NilEmpty.usu.
Qed.

Lemma to_uint_head (p : positive) (d : Decimal.uint) : Pos.to_uint p <> D0 d.
Proof.
  intros Heq.
  assert (Hnorm : unorm (Pos.to_uint p) = Pos.to_uint p).
  { rewrite <- DecimalPos.Unsigned.to_of, DecimalPos.Unsigned.of_to. reflexivity. }
  unfold unorm in Hnorm.
  destruct (nzhead (Pos.to_uint p)) eqn:Hhead;
    try (rewrite Heq in Hnorm; eapply DecimalFacts.nzhead_nonzero;
         rewrite Hhead; exact Hnorm).
  apply (DecimalPos.Unsigned.to_uint_nonzero p). symmetry. exact Hnorm.
Qed.

(** The digits of a positive number, with or without a sign in front,
    are read back as that number. *)
Lemma scan_int_digits (d : Decimal.uint) (c : ascii) (rest : Json.text) :
  d <> Nil -> (forall d', d <> D0 d') ->
  JsonText.after_number c = true ->
  Json.scan_int (JsonText.digits_of d ++ c :: rest) = Some (Z.of_int (Pos d), c :: rest)
  /\ Json.scan_int ("-"%char :: JsonText.digits_of d ++ c :: rest)
     = Some (Z.of_int (Neg d), c :: rest).
Proof.
  intros Hnil Hzero Hc.
  pose proof (span_digits_of d c rest Hc) as Hspan.
  pose proof (digits_of_parse d) as Hparse.
  assert (Hrest : forall A (x y : A),
             match c :: rest with
             | "."%char :: _ | "e"%char :: _ | "E"%char :: _ => x
             | _ => y
             end = y).
  { intros A x y.
    destruct c as [[] [] [] [] [] [] [] []]; try discriminate Hc; reflexivity. }
  destruct d as [|d|d|d|d|d|d|d|d|d|d];
    [congruence | exfalso; eapply Hzero; reflexivity | ..];
    (split; unfold Json.scan_int;
     [ change (JsonText.digits_of ?x ++ c :: rest) with (JsonText.digits_of x ++ c :: rest)
     | ]);
    cbn [JsonText.digits_of NilEmpty.string_of_uint list_ascii_of_string app] in *;
    rewrite Hspan; cbv iota beta; rewrite Hrest, Hparse; reflexivity.
Qed.

Lemma scan_int_encode_int (z : Z) (c : ascii) (rest : Json.text) :
  JsonText.after_number c = true ->
  Json.scan_int (Json.encode_int z ++ c :: rest) = Some (z, c :: rest).
Proof.
  intros Hc. unfold Json.encode_int. rewrite <- (DecimalZ.of_to z) at 2.
  destruct z as [|p|p]; simpl Z.to_int.
  - destruct c as [[] [] [] [] [] [] [] []]; try discriminate Hc; reflexivity.
  - unfold NilZero.string_of_int, NilZero.string_of_uint.
    destruct (scan_int_digits (Pos.to_uint p) c rest
                (DecimalPos.Unsigned.to_uint_nonnil p)
                (to_uint_head p) Hc) as [Hpos _].
    destruct (Pos.to_uint p) eqn:Hp;
      [destruct (DecimalPos.Unsigned.to_uint_nonnil p Hp) | ..]; exact Hpos.
  - unfold NilZero.string_of_int, NilZero.string_of_uint.
    destruct (scan_int_digits (Pos.to_uint p) c rest
                (DecimalPos.Unsigned.to_uint_nonnil p)
                (to_uint_head p) Hc) as [_ Hneg].
    destruct (Pos.to_uint p) eqn:Hp;
      [destruct (DecimalPos.Unsigned.to_uint_nonnil p Hp) | ..]; exact Hneg.
Qed.

(** ** White space *)

Lemma skip_ws_spaces (n : nat) (s : Json.text) :
  Json.skip_ws (repeat " "%char n ++ s) = Json.skip_ws s.
Proof. induction n as [|n IH]; [reflexivity | exact IH]. Qed.

Lemma skip_ws_newline_indent (level : nat) (s : Json.text) :
  Json.skip_ws (Json.newline_indent level ++ s) = Json.skip_ws s.
Proof. unfold Json.newline_indent. simpl. apply skip_ws_spaces. Qed.

(** ** Lists of integers *)

Lemma encode_int_start (z : Z) :
  exists c tl, Json.encode_int z = c :: tl /\ JsonText.number_start c = true.
Proof.
  unfold Json.encode_int.
  destruct z as [|p|p]; simpl Z.to_int; unfold NilZero.string_of_int.
  - exists "0"%char, []. split; reflexivity.
  - pose proof (DecimalPos.Unsigned.to_uint_nonnil p) as Hnil.
    unfold NilZero.string_of_uint.
    destruct (Pos.to_uint p); [congruence | ..]; simpl; eauto.
  - simpl. eauto.
Qed.

Lemma skip_ws_number_start (c : ascii) (tl : Json.text) :
  JsonText.number_start c = true -> Json.skip_ws (c :: tl) = c :: tl.
Proof.
  intros Hc. destruct c as [[] [] [] [] [] [] [] []]; try discriminate Hc; reflexivity.
Qed.

Lemma skip_ws_encode_int (z : Z) (s : Json.text) :
  Json.skip_ws (Json.encode_int z ++ s) = Json.encode_int z ++ s.
Proof.
  destruct (encode_int_start z) as (c & tl & -> & Hc).
  apply skip_ws_number_start, Hc.
Qed.

Lemma join_cons_cons (sep x y : Json.text) (l : list Json.text) :
  Json.join sep (x :: y :: l) = x ++ sep ++ Json.join sep (y :: l).
Proof. reflexivity. Qed.

Lemma join_encode_int_length (sep : Json.text) (l : list Z) :
  (length l <= length (Json.join sep (map Json.encode_int l)))%nat.
Proof.
  induction l as [|v l IH]; [simpl; lia|].
  destruct (encode_int_start v) as (c & tl & Hv & _).
  destruct l as [|v' l].
  - simpl. rewrite Hv. simpl. lia.
  - change (map Json.encode_int (v :: v' :: l))
      with (Json.encode_int v :: Json.encode_int v' :: map Json.encode_int l).
    rewrite join_cons_cons, Hv, !length_app. simpl in IH |- *. lia.
Qed.

Lemma scan_elements_join (level : nat) (vs : list Z) :
  forall (v : Z) (fuel : nat) (rest : Json.text),
    (length vs < fuel)%nat ->
    Json.scan_elements fuel
      (Json.join (","%char :: Json.newline_indent (S level))
                 (map Json.encode_int (v :: vs))
       ++ Json.newline_indent level ++ "]"%char :: rest)
    = Some (v :: vs, rest).
Proof.
  induction vs as [|v' vs IH]; intros v fuel rest Hfuel;
    (destruct fuel as [|fuel]; [simpl in Hfuel; lia|]).
  - cbn [map Json.join Json.scan_elements].
    change (Json.newline_indent level ++ "]"%char :: rest)
      with (Json.NEWLINE :: repeat " "%char (4 * level) ++ "]"%char :: rest).
    rewrite scan_int_encode_int by reflexivity.
    cbn [mbind option_bind].
    change (Json.skip_ws (Json.NEWLINE :: ?s)) with (Json.skip_ws s).
    rewrite skip_ws_spaces. reflexivity.
  - change (map Json.encode_int (v :: v' :: vs))
      with (Json.encode_int v :: map Json.encode_int (v' :: vs)).
    cbn [map]. rewrite join_cons_cons. cbn [Json.scan_elements].
    rewrite <- !app_assoc. cbn [app].
    rewrite scan_int_encode_int by reflexivity.
    cbn [mbind option_bind].
    change (Json.skip_ws (","%char :: ?s)) with (","%char :: s).
    cbv iota beta.
    rewrite skip_ws_newline_indent.
    change (Json.encode_int v' :: map Json.encode_int vs)
      with (map Json.encode_int (v' :: vs)).
    assert (Hskip : forall s,
               Json.skip_ws (Json.join (","%char :: Json.newline_indent (S level))
                               (map Json.encode_int (v' :: vs)) ++ s)
               = Json.join (","%char :: Json.newline_indent (S level))
                   (map Json.encode_int (v' :: vs)) ++ s).
    { intros s. destruct vs as [|v'' vs].
      - apply skip_ws_encode_int.
      - change (map Json.encode_int (v' :: v'' :: vs))
          with (Json.encode_int v' :: Json.encode_int v'' :: map Json.encode_int vs).
        rewrite join_cons_cons, <- app_assoc. apply skip_ws_encode_int. }
    rewrite Hskip, IH by (simpl in Hfuel |- *; lia). reflexivity.
Qed.

Lemma scan_array_number_start (c : ascii) (tl : Json.text) (level : nat) :
  JsonText.number_start c = true ->
  Json.scan_array (Json.newline_indent level ++ c :: tl)
  = Json.scan_elements (length (c :: tl)) (c :: tl).
Proof.
  intros Hc. unfold Json.scan_array.
  rewrite skip_ws_newline_indent, skip_ws_number_start by exact Hc.
  destruct c as [[] [] [] [] [] [] [] []]; try discriminate Hc; reflexivity.
Qed.

(** A dumped list starts with a bracket, and the text after the bracket
    is read back as the list. *)
Lemma scan_array_encode_list (level : nat) (l : list Z) (rest : Json.text) :
  exists body,
    Json.encode_list level l ++ rest = "["%char :: body
    /\ Json.scan_array body = Some (l, rest).
Proof.
  destruct l as [|v vs].
  - exists ("]"%char :: rest). split; reflexivity.
  - eexists. split.
    + unfold Json.encode_list. cbn [app]. rewrite <- !app_assoc. reflexivity.
    + destruct (encode_int_start v) as (c & tl & Hv & Hc).
      assert (Hhead : exists tl',
                 Json.join (","%char :: Json.newline_indent (S level))
                   (map Json.encode_int (v :: vs))
                 ++ Json.newline_indent level ++ ["]"%char] ++ rest
                 = c :: tl').
      { destruct vs as [|v' vs].
        - cbn [map Json.join]. rewrite Hv. eexists. reflexivity.
        - change (map Json.encode_int (v :: v' :: vs))
            with (Json.encode_int v :: Json.encode_int v' :: map Json.encode_int vs).
          rewrite join_cons_cons, Hv. eexists. reflexivity. }
      destruct Hhead as (tl' & Hhead).
      rewrite Hhead, scan_array_number_start by exact Hc.
      rewrite <- Hhead. apply scan_elements_join.
      pose proof (join_encode_int_length
                    (","%char :: Json.newline_indent (S level)) (v :: vs)) as Hlen.
      rewrite !length_app. simpl in Hlen |- *. lia.
Qed.

(** ** Dictionaries *)

Lemma encode_item_tail (kv : string * list Z) :
  Json.encode_item kv = Json.DQUOTE :: JsonText.item_tail kv.
Proof.
  unfold Json.encode_item, Json.encode_str, JsonText.item_tail.
  cbn [app]. rewrite <- !app_assoc. reflexivity.
Qed.

Lemma item_tail_length (kv : string * list Z) : (1 <= length (JsonText.item_tail kv))%nat.
Proof. unfold JsonText.item_tail. rewrite length_app. simpl. lia. Qed.

(** One item followed by [after]: the key and the list are read, and
    the scan goes on at [after]. *)
Lemma scan_item (kv : string * list Z) (after : Json.text) :
  Json.scanstring (JsonText.item_tail kv ++ after)
  = Some (list_ascii_of_string (fst kv),
          ":"%char :: " "%char :: Json.encode_list 1 (snd kv) ++ after).
Proof.
  unfold JsonText.item_tail. rewrite <- app_assoc. cbn [app]. apply scanstring_escaped.
Qed.

Lemma scan_items_join (d : list (string * list Z)) :
  forall (kv : string * list Z) (fuel : nat) (rest : Json.text),
    (length d < fuel)%nat ->
    exists items,
      Json.join (","%char :: Json.newline_indent 1)
                (map Json.encode_item (kv :: d))
      = Json.DQUOTE :: items
      /\ Json.scan_items fuel
           (items ++ Json.newline_indent 0 ++ "}"%char :: rest)
         = Some (kv :: d, rest).
Proof.
  induction d as [|kv' d IH]; intros [k v] fuel rest Hfuel;
    (destruct fuel as [|fuel]; [simpl in Hfuel; lia|]).
  - exists (JsonText.item_tail (k, v)). split; [apply encode_item_tail|].
    cbn [Json.scan_items]. rewrite scan_item. cbn [mbind option_bind fst snd].
    change (Json.skip_ws (":"%char :: " "%char :: ?s))
      with (":"%char :: " "%char :: s).
    cbv iota beta.
    change (Json.skip_ws (" "%char :: ?s)) with (Json.skip_ws s).
    destruct (scan_array_encode_list 1 v
                (Json.newline_indent 0 ++ "}"%char :: rest))
      as (body & Hbody & Hscan).
    rewrite Hbody.
    change (Json.skip_ws ("["%char :: body)) with ("["%char :: body).
    cbv iota beta. rewrite Hscan. cbn [mbind option_bind].
    rewrite skip_ws_newline_indent.
    change (Json.skip_ws ("}"%char :: rest)) with ("}"%char :: rest).
    cbv iota beta. rewrite string_of_list_ascii_of_string. reflexivity.
  - destruct (IH kv' fuel rest) as (items & Hitems & Hscan);
      [simpl in Hfuel |- *; lia|].
    exists (JsonText.item_tail (k, v) ++ ","%char :: Json.newline_indent 1
            ++ Json.DQUOTE :: items).
    split.
    + change (map Json.encode_item ((k, v) :: kv' :: d))
        with (Json.encode_item (k, v) :: map Json.encode_item (kv' :: d)).
      cbn [map] in Hitems |- *. rewrite join_cons_cons, Hitems, encode_item_tail.
      reflexivity.
    + cbn [Json.scan_items]. rewrite <- app_assoc. rewrite scan_item.
      cbn [mbind option_bind fst snd].
      change (Json.skip_ws (":"%char :: " "%char :: ?s))
        with (":"%char :: " "%char :: s).
      cbv iota beta.
      change (Json.skip_ws (" "%char :: ?s)) with (Json.skip_ws s).
      destruct (scan_array_encode_list 1 v
                  ((","%char :: Json.newline_indent 1 ++ Json.DQUOTE :: items)
                   ++ Json.newline_indent 0 ++ "}"%char :: rest))
        as (body & Hbody & Hscan_v).
      rewrite Hbody.
      change (Json.skip_ws ("["%char :: body)) with ("["%char :: body).
      cbv iota beta. rewrite Hscan_v. cbn [mbind option_bind].
      cbn [app].
      change (Json.skip_ws (","%char :: ?s)) with (","%char :: s).
      cbv iota beta. rewrite <- app_assoc, skip_ws_newline_indent.
      cbn [app].
      change (Json.skip_ws (Json.DQUOTE :: ?s)) with (Json.DQUOTE :: s).
      cbv iota beta. unfold Json.DQUOTE at 1. cbv iota beta.
      rewrite Hscan. cbn [mbind option_bind].
      rewrite string_of_list_ascii_of_string. reflexivity.
Qed.

Lemma join_encode_item_length (sep : Json.text) (d : list (string * list Z)) :
  (length d <= length (Json.join sep (map Json.encode_item d)))%nat.
Proof.
  induction d as [|kv d IH]; [simpl; lia|].
  destruct d as [|kv' d].
  - cbn [map Json.join]. rewrite encode_item_tail. simpl. lia.
  - change (map Json.encode_item (kv :: kv' :: d))
      with (Json.encode_item kv :: Json.encode_item kv' :: map Json.encode_item d).
    rewrite join_cons_cons, encode_item_tail, !length_app.
    simpl in IH |- *. lia.
Qed.

(** [json.load] reads the list of items that [json.dump] wrote. *)
Lemma load_dump_pairs (d : list (string * list Z)) :
  Json.load (Json.dump d) = Some (Py.Dict.of_pairs d).
Proof.
  destruct d as [|kv d]; [reflexivity|].
  unfold Json.dump, Json.load.
  change (Json.skip_ws ("{"%char :: ?s)) with ("{"%char :: s).
  cbv iota beta.
  destruct (scan_items_join d kv
              (length (Json.join (","%char :: Json.newline_indent 1)
                         (map Json.encode_item (kv :: d))
                       ++ Json.newline_indent 0 ++ ["}"%char]) - 1) [])
    as (items & Hitems & Hscan).
  { pose proof (join_encode_item_length (","%char :: Json.newline_indent 1)
                  (kv :: d)) as Hlen.
    rewrite !length_app. simpl in Hlen |- *. lia. }
  unfold Json.scan_object. rewrite skip_ws_newline_indent, Hitems.
  cbn [app].
  change (Json.skip_ws (Json.DQUOTE :: ?s)) with (Json.DQUOTE :: s).
  unfold Json.DQUOTE at 1. cbv iota beta.
  rewrite Hitems in Hscan. cbn [app length] in Hscan.
  rewrite Nat.sub_succ, Nat.sub_0_r in Hscan. rewrite Hscan.
  reflexivity.
Qed.

Lemma load_dump (d : Py.Dict.t string (list Z)) :
  NoDup (Py.Dict.keys d) -> Json.load (Json.dump d) = Some d.
Proof.
  intros Hnd. rewrite load_dump_pairs, dict_of_pairs_NoDup by exact Hnd.
  reflexivity.
Qed.

(* ===================================================================== *)
(** * The index built by [build_index] *)
(* ===================================================================== *)

Lemma add_posting_keys_NoDup (idx : index) (word : string) (doc_id : Z) :
  NoDup (Py.Dict.keys idx) ->
  NoDup (Py.Dict.keys (Indexer.add_posting idx word doc_id)).
Proof.
  intros Hnd. unfold Indexer.add_posting.
  assert (Hnd' : NoDup (Py.Dict.keys
                          (if Py.Dict.mem idx word then idx
                           else Py.Dict.set idx word []))).
  { destruct (Py.Dict.mem idx word); [exact Hnd|].
    apply dict_keys_NoDup_set, Hnd. }
  cbv zeta. destruct (bool_decide _); [exact Hnd'|].
  apply dict_keys_NoDup_set, Hnd'.
Qed.

Lemma index_row_keys_NoDup (self : Indexer.t) (idx : index) (row : Z * string) :
  NoDup (Py.Dict.keys idx) ->
  NoDup (Py.Dict.keys (Indexer.index_row self idx row)).
Proof.
  destruct row as [doc_id text_content]. unfold Indexer.index_row.
  generalize (Indexer._preprocess_text self text_content) as words.
  intros words. revert idx.
  induction words as [|word words IH]; intros idx Hnd; [exact Hnd|].
  simpl. apply IH, add_posting_keys_NoDup, Hnd.
Qed.

Lemma build_index_keys_NoDup (self : Indexer.t) :
  NoDup (Py.Dict.keys (Indexer.inverted_index self)) ->
  NoDup (Py.Dict.keys (Indexer.inverted_index (Indexer.build_index self))).
Proof.
  unfold Indexer.build_index. simpl.
  generalize (select_all (Indexer.conn self)) as rows.
  generalize (Indexer.inverted_index self) as idx.
  intros idx rows. revert idx.
  induction rows as [|row rows IH]; intros idx Hnd; [exact Hnd|].
  simpl. apply IH, index_row_keys_NoDup, Hnd.
Qed.

(** C9. For every store, the index that [build_index] builds over it
    and [save_index] writes is read back by the searcher's constructor
    as the very same index: the same terms in the same order, each with
    the same posting list. *)
Theorem index_file_round_trip (db db' : database) :
  Json.load (Indexer.save_index (Indexer.build_index (Indexer.init db)))
  = Some (Indexer.inverted_index (Indexer.build_index (Indexer.init db)))
  /\ Searcher.init db'
       (Indexer.save_index (Indexer.build_index (Indexer.init db)))
     = Some {| Searcher.conn := db';
               Searcher.inverted_index :=
                 Indexer.inverted_index (Indexer.build_index (Indexer.init db));
               Searcher.stop_words := list_to_set NLTK.stopwords_english |}.
Proof.
  assert (Hload : Json.load (Indexer.save_index
                               (Indexer.build_index (Indexer.init db)))
                  = Some (Indexer.inverted_index
                            (Indexer.build_index (Indexer.init db)))).
  { unfold Indexer.save_index. apply load_dump, build_index_keys_NoDup.
    simpl. apply NoDup_nil_2. }
  split; [exact Hload|].
  unfold Searcher.init. rewrite Hload. reflexivity.
Qed.

(** The index file of the three documents of the scenario. *)
Example index_file_three_docs :
  string_of_list_ascii (Indexer.save_index
    {| Indexer.conn := Scenario.empty_store;
       Indexer.stop_words := ∅;
       Indexer.inverted_index := [("cats", [1; 2]); ("none", [])] |})
  = String "{" (String "010" ("    " +:+ String "034" ("cats" +:+ String "034"
      (": [" +:+ String "010" ("        1," +:+ String "010" ("        2"
       +:+ String "010" ("    ]," +:+ String "010" ("    " +:+ String "034"
       ("none" +:+ String "034" (": []" +:+ String "010" "}")))))))))).
Proof. vm_compute. reflexivity. Qed.

(* ===================================================================== *)
(** * Posting lists *)
(* ===================================================================== *)

Lemma add_posting_get (idx : index) (word : string) (doc_id : Z) (w : string) :
  Py.Dict.get (Indexer.add_posting idx word doc_id) w
  = if decide (word = w)
    then Some (Postings.append_new (Postings.lookup idx word) doc_id)
    else Py.Dict.get idx w.
Proof.
  unfold Indexer.add_posting, Postings.append_new, Postings.lookup, Py.Dict.mem.
  cbv zeta.
  destruct (Py.Dict.get idx word) as [l|] eqn:Hget; simpl default.
  - rewrite Hget. simpl default.
    destruct (bool_decide (doc_id ∈ l)).
    + destruct (decide (word = w)) as [<-|]; [exact Hget | reflexivity].
    + apply dict_get_set.
  - rewrite dict_get_set. destruct (decide (word = word)); [|congruence].
    simpl default.
    destruct (bool_decide (doc_id ∈ [])) eqn:Hin.
    + apply bool_decide_eq_true in Hin. apply elem_of_nil in Hin. destruct Hin.
    + rewrite dict_get_set, dict_get_set.
      destruct (decide (word = w)); reflexivity.
Qed.

Lemma add_posting_lookup (idx : index) (word : string) (doc_id : Z) (w : string) :
  Postings.lookup (Indexer.add_posting idx word doc_id) w
  = if decide (word = w)
    then Postings.append_new (Postings.lookup idx w) doc_id
    else Postings.lookup idx w.
Proof.
  unfold Postings.lookup at 1. rewrite add_posting_get.
  destruct (decide (word = w)) as [<-|]; reflexivity.
Qed.

Lemma append_new_idem (l : list Z) (doc_id : Z) :
  Postings.append_new (Postings.append_new l doc_id) doc_id
  = Postings.append_new l doc_id.
Proof.
  unfold Postings.append_new.
  destruct (bool_decide (doc_id ∈ l)) eqn:Hin.
  - rewrite Hin. reflexivity.
  - rewrite bool_decide_eq_true_2; [reflexivity|].
    apply elem_of_app. right. apply list_elem_of_here.
Qed.

(** Indexing the words of one document appends its id once to the
    posting list of each of its words and leaves the others alone. *)
Lemma add_postings_lookup (words : list string) (doc_id : Z) (w : string) :
  forall idx : index,
    Postings.lookup
      (fold_left (fun idx word => Indexer.add_posting idx word doc_id) words idx)
      w
    = if bool_decide (w ∈ words)
      then Postings.append_new (Postings.lookup idx w) doc_id
      else Postings.lookup idx w.
Proof.
  induction words as [|t words IH]; intros idx; [reflexivity|].
  cbn [fold_left]. rewrite IH, add_posting_lookup.
  destruct (decide (t = w)) as [->|Hne].
  - rewrite append_new_idem.
    rewrite (bool_decide_eq_true_2 (w ∈ w :: words)) by apply list_elem_of_here.
    destruct (bool_decide (w ∈ words)); reflexivity.
  - destruct (bool_decide (w ∈ words)) eqn:Hin.
    + apply bool_decide_eq_true in Hin.
      rewrite bool_decide_eq_true_2 by (apply list_elem_of_further, Hin).
      reflexivity.
    + apply bool_decide_eq_false in Hin.
      rewrite bool_decide_eq_false_2; [reflexivity|].
      intros Hin'. apply elem_of_cons in Hin' as [->|Hin']; [congruence | auto].
Qed.

Lemma index_rows_lookup (self : Indexer.t) (w : string) (rows : list (Z * string)) :
  forall idx : index,
    Postings.lookup (fold_left (Indexer.index_row self) rows idx) w
    = Postings.after_rows self w rows (Postings.lookup idx w).
Proof.
  unfold Postings.after_rows.
  induction rows as [|[doc_id text] rows IH]; intros idx; [reflexivity|].
  cbn [fold_left]. rewrite IH. f_equal.
  unfold Indexer.index_row. apply add_postings_lookup.
Qed.

Lemma build_index_lookup (self : Indexer.t) (w : string) :
  Postings.lookup (Indexer.inverted_index (Indexer.build_index self)) w
  = Postings.after_rows self w (select_all (Indexer.conn self))
      (Postings.lookup (Indexer.inverted_index self) w).
Proof. unfold Indexer.build_index. simpl. apply index_rows_lookup. Qed.

Lemma append_new_elem (l : list Z) (doc_id x : Z) :
  x ∈ Postings.append_new l doc_id <-> x ∈ l \/ x = doc_id.
Proof.
  unfold Postings.append_new. destruct (bool_decide (doc_id ∈ l)) eqn:Hin.
  - apply bool_decide_eq_true in Hin. split; [auto | intros [?| ->]; auto].
  - rewrite elem_of_app, list_elem_of_singleton. reflexivity.
Qed.

Lemma append_new_NoDup (l : list Z) (doc_id : Z) :
  NoDup l -> NoDup (Postings.append_new l doc_id).
Proof.
  intros Hnd. unfold Postings.append_new.
  destruct (bool_decide (doc_id ∈ l)) eqn:Hin; [exact Hnd|].
  apply bool_decide_eq_false in Hin.
  apply NoDup_app. split; [exact Hnd|]. split; [|apply NoDup_singleton].
  intros x Hx Hx'. apply list_elem_of_singleton in Hx'. subst x. auto.
Qed.

Lemma after_rows_elem (self : Indexer.t) (w : string) (rows : list (Z * string)) :
  forall (l : list Z) (x : Z),
    x ∈ Postings.after_rows self w rows l
    <-> x ∈ l \/ exists text, (x, text) ∈ rows
                              /\ w ∈ Indexer._preprocess_text self text.
Proof.
  unfold Postings.after_rows.
  induction rows as [|[doc_id text] rows IH]; intros l x; cbn [fold_left fst snd].
  - split; [auto|]. intros [Hx|(text & Hin & _)]; [exact Hx|].
    apply elem_of_nil in Hin. destruct Hin.
  - rewrite IH. split.
    + intros [Hx|(text' & Hin & Hw)].
      * destruct (bool_decide (w ∈ Indexer._preprocess_text self text)) eqn:Hhas;
          [|auto].
        apply bool_decide_eq_true in Hhas.
        apply append_new_elem in Hx as [Hx| ->]; [auto|].
        right. exists text. split; [apply list_elem_of_here | exact Hhas].
      * right. exists text'. split; [apply list_elem_of_further, Hin | exact Hw].
    + intros [Hx|(text' & Hin & Hw)].
      * left. destruct (bool_decide _); [apply append_new_elem|]; auto.
      * apply elem_of_cons in Hin as [[= -> ->]|Hin].
        -- left. rewrite bool_decide_eq_true_2 by exact Hw.
           apply append_new_elem. auto.
        -- right. exists text'. auto.
Qed.

Lemma after_rows_NoDup (self : Indexer.t) (w : string) (rows : list (Z * string)) :
  forall l : list Z, NoDup l -> NoDup (Postings.after_rows self w rows l).
Proof.
  unfold Postings.after_rows.
  induction rows as [|row rows IH]; intros l Hnd; [exact Hnd|].
  cbn [fold_left]. apply IH.
  destruct (bool_decide _); [apply append_new_NoDup|]; exact Hnd.
Qed.

(** With pairwise different document ids, none of them in [l] yet, the
    ids of the documents that have the word are appended in row order. *)
Lemma after_rows_order (self : Indexer.t) (w : string) (rows : list (Z * string)) :
  forall l : list Z,
    NoDup (l ++ map fst rows) ->
    Postings.after_rows self w rows l
    = l ++ map fst
             (filter (fun row => w ∈ Indexer._preprocess_text self (snd row)) rows).
Proof.
  unfold Postings.after_rows.
  induction rows as [|[doc_id text] rows IH]; intros l Hnd; cbn [fold_left fst snd].
  - rewrite app_nil_r. reflexivity.
  - assert (Hfresh : doc_id ∉ l).
    { apply NoDup_app in Hnd as (_ & Hdisj & _). intros Hin.
      apply (Hdisj doc_id Hin). simpl. apply list_elem_of_here. }
    destruct (bool_decide (w ∈ Indexer._preprocess_text self text)) eqn:Hhas.
    + apply bool_decide_eq_true in Hhas.
      rewrite filter_cons_True by exact Hhas.
      unfold Postings.append_new. rewrite bool_decide_eq_false_2 by exact Hfresh.
      rewrite IH.
      * rewrite <- app_assoc. reflexivity.
      * rewrite <- app_assoc. exact Hnd.
    + apply bool_decide_eq_false in Hhas.
      rewrite filter_cons_False by exact Hhas.
      apply IH. simpl in Hnd.
      apply NoDup_app in Hnd as (Hl & Hdisj & Hrows).
      apply NoDup_app. split; [exact Hl|]. split.
      * intros x Hx Hx'. apply (Hdisj x Hx), list_elem_of_further, Hx'.
      * apply NoDup_cons in Hrows as [_ Hrows]. exact Hrows.
Qed.

Lemma select_all_elem (db : database) (doc_id : Z) (text : string) :
  (doc_id, text) ∈ select_all db
  <-> exists p, p ∈ pages db /\ page_id p = doc_id /\ text_content p = text.
Proof.
  unfold select_all. rewrite list_elem_of_fmap. split.
  - intros (p & [= -> ->] & Hp). eauto.
  - intros (p & Hp & <- & <-). eauto.
Qed.

Lemma filter_select_all (self : Indexer.t) (db : database) (word : string) :
  map fst (filter (fun row : Z * string =>
                     word ∈ Indexer._preprocess_text self (snd row))
                  (select_all db))
  = map page_id (filter (fun p => word ∈ Indexer._preprocess_text self
                                           (text_content p))
                        (pages db)).
Proof.
  unfold select_all. induction (pages db) as [|p ps IH]; [reflexivity|].
  cbn [map].
  destruct (decide (word ∈ Indexer._preprocess_text self (text_content p)))
    as [Hp|Hp].
  - rewrite !filter_cons_True by exact Hp. cbn [map fst]. f_equal. exact IH.
  - rewrite !filter_cons_False by exact Hp. exact IH.
Qed.

Lemma select_all_ids (db : database) :
  map fst (select_all db) = map page_id (pages db).
Proof. unfold select_all. rewrite map_map. reflexivity. Qed.

(** Every key of the index has at least one document. *)
Lemma add_posting_nonempty (idx : index) (word : string) (doc_id : Z) :
  (forall w l, Py.Dict.get idx w = Some l -> l <> []) ->
  forall w l, Py.Dict.get (Indexer.add_posting idx word doc_id) w = Some l -> l <> [].
Proof.
  intros Hidx w l. rewrite add_posting_get.
  destruct (decide (word = w)) as [_|_]; [|apply Hidx].
  intros [= <-]. unfold Postings.append_new.
  destruct (bool_decide _) eqn:Hin.
  - apply bool_decide_eq_true in Hin. intros Hnil. rewrite Hnil in Hin.
    apply elem_of_nil in Hin. exact Hin.
  - intros Hnil. apply app_eq_nil in Hnil as [_ Hnil]. discriminate.
Qed.

Lemma build_index_nonempty (db : database) (w : string) (l : list Z) :
  Py.Dict.get (Indexer.inverted_index (Indexer.build_index (Indexer.init db))) w
  = Some l ->
  l <> [].
Proof.
  unfold Indexer.build_index. simpl Indexer.inverted_index.
  generalize (Indexer.init db) as self. intros self.
  assert (Hgen : forall rows (idx : index),
             (forall w l, Py.Dict.get idx w = Some l -> l <> []) ->
             forall w l,
               Py.Dict.get (fold_left (Indexer.index_row self) rows idx) w = Some l ->
               l <> []).
  { induction rows as [|[doc_id text] rows IH]; intros idx Hidx; [exact Hidx|].
    cbn [fold_left]. apply IH. unfold Indexer.index_row.
    generalize (Indexer._preprocess_text self text) as words. intros words.
    revert idx Hidx. induction words as [|t words IHw]; intros idx Hidx;
      [exact Hidx|].
    cbn [fold_left]. apply IHw, add_posting_nonempty, Hidx. }
  apply Hgen. intros w' l'. simpl. discriminate.
Qed.

(** X1. In the index that [build_index] builds, no posting list names a
    document twice, however often the word occurs in it and however many
    rows carry the same id. *)
Theorem build_index_postings_duplicate_free
  (db : database) (word : string) (l : list Z) :
  Py.Dict.get (Indexer.inverted_index (Indexer.build_index (Indexer.init db)))
              word = Some l ->
  NoDup l.
Proof.
  intros Hget.
  pose proof (build_index_lookup (Indexer.init db) word) as Hlookup.
  unfold Postings.lookup at 1 in Hlookup. rewrite Hget in Hlookup.
  simpl in Hlookup. rewrite Hlookup.
  apply after_rows_NoDup. apply NoDup_nil_2.
Qed.

Lemma build_index_postings_duplicate_free_witness : NoDup [1; 2].
Proof.
  apply (build_index_postings_duplicate_free Scenario.three_docs "cats").
  vm_compute. reflexivity.
Defined.

Lemma posting_membership (db : database) (word : string) (doc_id : Z) :
  doc_id ∈ Postings.lookup
             (Indexer.inverted_index (Indexer.build_index (Indexer.init db))) word
  <-> exists p, p ∈ pages db
                /\ page_id p = doc_id
                /\ word ∈ Indexer._preprocess_text (Indexer.init db)
                            (text_content p).
Proof.
  rewrite build_index_lookup, after_rows_elem. simpl. split.
  - intros [Hnil|(text & Hrow & Hword)]; [apply elem_of_nil in Hnil; destruct Hnil|].
    apply select_all_elem in Hrow as (p & Hp & Hid & <-). eauto.
  - intros (p & Hp & Hid & Hword). right. exists (text_content p).
    split; [|exact Hword]. apply select_all_elem. eauto.
Qed.

(** X2. A document id is in the posting list of a word exactly when the
    store has a row with that id whose text has the word among its
    terms. *)
Theorem build_index_posting_membership
  (db : database) (word : string) (doc_id : Z) :
  doc_id ∈ default []
             (Py.Dict.get
                (Indexer.inverted_index (Indexer.build_index (Indexer.init db)))
                word)
  <-> exists p, p ∈ pages db
                /\ page_id p = doc_id
                /\ word ∈ Indexer._preprocess_text (Indexer.init db)
                            (text_content p).
Proof. apply posting_membership. Qed.

Lemma build_index_posting_membership_witness :
  1 ∈ default []
        (Py.Dict.get (Indexer.inverted_index Scenario.three_docs_index) "dogs").
Proof.
  apply (build_index_posting_membership Scenario.three_docs "dogs" 1).
  exists (Page 1 "http://a.test/1" "" "cats and dogs are friends").
  split; [apply list_elem_of_here|]. split; [reflexivity|].
  vm_compute. apply list_elem_of_further, list_elem_of_here.
Defined.

(** X3. A word is a key of the built index exactly when it is a term of
    some stored document; in particular no key has an empty posting
    list. *)
Theorem build_index_keys
  (db : database) (word : string) :
  (Py.Dict.mem (Indexer.inverted_index (Indexer.build_index (Indexer.init db)))
               word = true
   <-> exists p, p ∈ pages db
                 /\ word ∈ Indexer._preprocess_text (Indexer.init db)
                             (text_content p))
  /\ Py.Dict.get (Indexer.inverted_index (Indexer.build_index (Indexer.init db)))
                 word <> Some [].
Proof.
  split.
  - unfold Py.Dict.mem.
    destruct (Py.Dict.get (Indexer.inverted_index
                             (Indexer.build_index (Indexer.init db))) word)
      as [l|] eqn:Hget.
    + pose proof (build_index_nonempty db word l Hget) as Hne.
      split; [intros _|reflexivity].
      destruct l as [|d l]; [congruence|].
      destruct (posting_membership db word d) as [Hto _].
      unfold Postings.lookup in Hto. rewrite Hget in Hto. destruct (Hto (list_elem_of_here _ _))
        as (p & Hp & _ & Hword).
      eauto.
    + split; [discriminate|]. intros (p & Hp & Hword). exfalso.
      destruct (posting_membership db word (page_id p)) as [_ Hfrom].
      unfold Postings.lookup in Hfrom. rewrite Hget in Hfrom.
      assert (Hin : page_id p ∈ default [] (@None (list Z))) by (apply Hfrom; eauto).
      apply elem_of_nil in Hin. exact Hin.
  - intros Hget. apply (build_index_nonempty db word [] Hget). reflexivity.
Qed.

Lemma build_index_keys_witness :
  Py.Dict.mem (Indexer.inverted_index Scenario.three_docs_index) "parks" = true.
Proof.
  apply (build_index_keys Scenario.three_docs "parks").
  exists (Page 3 "http://a.test/3" "" "dogs love parks").
  split; [do 2 apply list_elem_of_further; apply list_elem_of_here|].
  vm_compute. do 2 apply list_elem_of_further. apply list_elem_of_here.
Defined.

(** X4. When the rows of the store have pairwise different ids, the
    posting list of a word is the list of the ids of the documents that
    have the word, in the order of the rows. *)
Theorem build_index_posting_order (db : database) (word : string) :
  NoDup (map page_id (pages db)) ->
  default []
    (Py.Dict.get (Indexer.inverted_index (Indexer.build_index (Indexer.init db)))
                 word)
  = map page_id
      (filter (fun p => word ∈ Indexer._preprocess_text (Indexer.init db)
                                 (text_content p))
              (pages db)).
Proof.
  intros Hids.
  change (default [] (Py.Dict.get ?idx word)) with (Postings.lookup idx word).
  rewrite build_index_lookup, after_rows_order.
  - simpl. apply filter_select_all.
  - simpl. rewrite select_all_ids. exact Hids.
Qed.

Lemma build_index_posting_order_witness :
  default []
    (Py.Dict.get (Indexer.inverted_index Scenario.three_docs_index) "cats")
  = map page_id
      (filter (fun p => "cats" ∈ Indexer._preprocess_text
                                   (Indexer.init Scenario.three_docs)
                                   (text_content p))
              (pages Scenario.three_docs)).
Proof.
  apply (build_index_posting_order Scenario.three_docs "cats").
  apply (bool_decide_unpack _). vm_compute. exact I.
Defined.

(* ===================================================================== *)
(** * Searching an index built from the store *)
(* ===================================================================== *)

Lemma select_by_id_Some (db : database) (doc_id : Z) (url text : string) :
  select_by_id db doc_id = Some (url, text) ->
  exists p, p ∈ pages db /\ page_id p = doc_id
            /\ page_url p = url /\ text_content p = text.
Proof.
  unfold select_by_id.
  destruct (find (fun p => page_id p =? doc_id) (pages db)) as [p|] eqn:Hfind;
    [|discriminate].
  intros [= <- <-]. apply find_some in Hfind as [Hin Hid].
  exists p. rewrite list_elem_of_In. apply Z.eqb_eq in Hid. auto.
Qed.

Lemma page_id_unique (ps : list page) (p q : page) :
  NoDup (map page_id ps) -> p ∈ ps -> q ∈ ps -> page_id p = page_id q -> p = q.
Proof.
  induction ps as [|x ps IH]; intros Hnd Hp Hq Hid;
    [apply elem_of_nil in Hp; destruct Hp|].
  simpl in Hnd. apply NoDup_cons in Hnd as [Hx Hnd].
  assert (Hfresh : forall y, y ∈ ps -> page_id y <> page_id x).
  { intros y Hy Heq. apply Hx. rewrite <- Heq.
    apply (list_elem_of_fmap_2 page_id), Hy. }
  apply elem_of_cons in Hp as [->|Hp]; apply elem_of_cons in Hq as [->|Hq].
  - reflexivity.
  - exfalso. apply (Hfresh q Hq). congruence.
  - exfalso. apply (Hfresh p Hp). congruence.
  - apply IH; assumption.
Qed.

Lemma select_by_id_unique (db : database) (p : page) :
  NoDup (map page_id (pages db)) -> p ∈ pages db ->
  select_by_id db (page_id p) = Some (page_url p, text_content p).
Proof.
  intros Hnd Hp. unfold select_by_id.
  destruct (find (fun q => page_id q =? page_id p) (pages db)) as [q|] eqn:Hfind.
  - apply find_some in Hfind as [Hin Hid]. apply Z.eqb_eq in Hid.
    apply list_elem_of_In in Hin.
    rewrite (page_id_unique (pages db) q p Hnd Hin Hp Hid). reflexivity.
  - apply list_elem_of_In in Hp.
    pose proof (find_none _ _ Hfind p Hp) as Hne. simpl in Hne.
    rewrite Z.eqb_refl in Hne. discriminate.
Qed.

(** The searcher that the constructor makes of the index file written
    for [db]. *)
Lemma init_of_built_index (db db' : database) (s : Searcher.t) :
  Searcher.init db' (Indexer.save_index (Indexer.build_index (Indexer.init db)))
  = Some s ->
  Searcher.conn s = db'
  /\ Searcher.inverted_index s
     = Indexer.inverted_index (Indexer.build_index (Indexer.init db))
  /\ Searcher.stop_words s = list_to_set NLTK.stopwords_english.
Proof.
  unfold Searcher.init, Indexer.save_index.
  rewrite load_dump by (apply build_index_keys_NoDup; simpl; apply NoDup_nil_2).
  intros [= <-]. auto.
Qed.

Lemma preprocess_query_unfold (s : Searcher.t) (query : string) :
  Searcher.stop_words s = list_to_set NLTK.stopwords_english ->
  Searcher._preprocess_query s query
  = filter (fun token => token ∉ NLTK.stopwords_english)
      (flat_map NLTK.split_contraction (Py.split (Spec.normalize query))).
Proof.
  intros Hstop. unfold Searcher._preprocess_query, NLTK.word_tokenize.
  rewrite Hstop, re_sub_lower_normalize. apply filter_stopwords_set.
Qed.

(** X5. Indexing a store with pairwise different ids and searching it
    through the index file: the results of a query with at least one
    term are the [(url, snippet)] pairs of exactly the stored documents
    whose text has every term of the query. *)
Theorem search_finds_documents_with_all_terms
  (db : database) (s : Searcher.t) (query first : string) (rest : list string) :
  NoDup (map page_id (pages db)) ->
  Searcher.init db (Indexer.save_index (Indexer.build_index (Indexer.init db)))
  = Some s ->
  Searcher._preprocess_query s query = first :: rest ->
  forall r : string * string,
    r ∈ Searcher.search s query
    <-> exists p, p ∈ pages db
                  /\ (forall word, word ∈ first :: rest ->
                        word ∈ Indexer._preprocess_text (Indexer.init db)
                                 (text_content p))
                  /\ r = (page_url p, Searcher.title_snippet (text_content p)).
Proof.
  intros Hids Hinit Hq r.
  destruct (init_of_built_index db db s Hinit) as (Hconn & Hidx & _).
  rewrite (search_eq s query first rest Hq), fetch_results_elem.
  assert (Hpost : forall word d,
             d ∈ Searcher.postings s word
             <-> exists p, p ∈ pages db /\ page_id p = d
                           /\ word ∈ Indexer._preprocess_text (Indexer.init db)
                                       (text_content p)).
  { intros word d. unfold Searcher.postings. rewrite Hidx.
    apply posting_membership. }
  split.
  - intros (d & url & text & Hd & Hrow & ->). rewrite Hconn in Hrow.
    apply select_by_id_Some in Hrow as (p & Hp & Hid & <- & <-).
    exists p. split; [exact Hp|]. split; [|reflexivity].
    intros word Hword. apply elem_of_elements in Hd.
    rewrite result_doc_ids_spec in Hd. specialize (Hd word Hword).
    apply Hpost in Hd as (q & Hq' & Hidq & Hw).
    rewrite (page_id_unique (pages db) p q Hids Hp Hq') by congruence.
    exact Hw.
  - intros (p & Hp & Hall & ->).
    exists (page_id p), (page_url p), (text_content p).
    split; [|split; [|reflexivity]].
    + apply elem_of_elements, result_doc_ids_spec. intros word Hword.
      apply Hpost. exists p. auto.
    + rewrite Hconn. apply select_by_id_unique; assumption.
Qed.

Lemma search_finds_documents_with_all_terms_witness :
  ("http://a.test/2", Searcher.title_snippet "cats hate water")
  ∈ Searcher.search Scenario.three_docs_searcher "hate cats".
Proof.
  apply (search_finds_documents_with_all_terms Scenario.three_docs
           Scenario.three_docs_searcher "hate cats" "hate" ["cats"]).
  - apply (bool_decide_unpack _). vm_compute. exact I.
  - vm_compute. reflexivity.
  - vm_compute. reflexivity.
  - exists (Page 2 "http://a.test/2" "" "cats hate water").
    split; [apply list_elem_of_further, list_elem_of_here|].
    split; [|reflexivity].
    intros word Hword. apply (bool_decide_unpack _).
    apply elem_of_cons in Hword as [->|Hword];
      [|apply list_elem_of_singleton in Hword; subst word];
      vm_compute; exact I.
Defined.

(** X6. A query whose words are all stopwords, the empty query among
    them, has no results, whatever the index holds. *)
Theorem search_stopwords_only
  (db : database) (index_file : Json.text) (s : Searcher.t) (query : string) :
  Searcher.init db index_file = Some s ->
  (forall token, token ∈ Py.split (Spec.normalize query) ->
                 token ∈ NLTK.stopwords_english) ->
  Searcher._preprocess_query s query = []
  /\ Searcher.search s query = [].
Proof.
  intros Hinit Hstop.
  assert (Hwords : Searcher.stop_words s = list_to_set NLTK.stopwords_english).
  { unfold Searcher.init in Hinit.
    destruct (Json.load index_file); [|discriminate].
    injection Hinit as <-. reflexivity. }
  assert (Hq : Searcher._preprocess_query s query = []).
  { rewrite preprocess_query_unfold by exact Hwords.
    rewrite split_contraction_none.
    - apply filter_all_stopwords, Hstop.
    - intros token Hin. apply stopword_is_no_contraction, Hstop, Hin. }
  split; [exact Hq|]. unfold Searcher.search. rewrite Hq. reflexivity.
Qed.

Lemma search_stopwords_only_witness :
  Searcher.search Scenario.three_docs_searcher "The is AT!" = [].
Proof.
  apply (search_stopwords_only Scenario.three_docs
           (Indexer.save_index Scenario.three_docs_index)
           Scenario.three_docs_searcher "The is AT!").
  - vm_compute. reflexivity.
  - apply Forall_forall. apply (bool_decide_unpack _). vm_compute. exact I.
Defined.

(** X7. Two queries with the same set of terms have the same results up
    to the order in which they are listed: neither the order of the
    terms nor a repeated term adds or removes a result. *)
Theorem search_term_order_irrelevant (s : Searcher.t) (query query' : string) :
  (forall word, word ∈ Searcher._preprocess_query s query
                <-> word ∈ Searcher._preprocess_query s query') ->
  Searcher.search s query ≡ₚ Searcher.search s query'.
Proof.
  intros Hsame.
  destruct (Searcher._preprocess_query s query) as [|first rest] eqn:Hq;
    destruct (Searcher._preprocess_query s query') as [|first' rest'] eqn:Hq'.
  - unfold Searcher.search. rewrite Hq, Hq'. reflexivity.
  - exfalso. apply (elem_of_nil first'), Hsame, list_elem_of_here.
  - exfalso. apply (elem_of_nil first), Hsame, list_elem_of_here.
  - rewrite (search_eq s query first rest Hq),
      (search_eq s query' first' rest' Hq').
    assert (Hids : Searcher.result_doc_ids s first rest
                   = Searcher.result_doc_ids s first' rest').
    { apply set_eq. intros d.
      rewrite !result_doc_ids_spec. split; intros Hall word Hword;
        apply Hall, Hsame, Hword. }
    rewrite Hids. reflexivity.
Qed.

Lemma search_term_order_irrelevant_witness :
  Searcher.search Scenario.three_docs_searcher "cats dogs"
  ≡ₚ Searcher.search Scenario.three_docs_searcher "dogs cats dogs".
Proof.
  apply search_term_order_irrelevant.
  assert (Hq : Searcher._preprocess_query Scenario.three_docs_searcher
                 "cats dogs" = ["cats"; "dogs"])
    by (vm_compute; reflexivity).
  assert (Hq' : Searcher._preprocess_query Scenario.three_docs_searcher
                  "dogs cats dogs" = ["dogs"; "cats"; "dogs"])
    by (vm_compute; reflexivity).
  intros word. rewrite Hq, Hq', !elem_of_cons.
  pose proof (elem_of_nil word) as Hnil. tauto.
Defined.

(* ===================================================================== *)
(** * The shape of terms and of snippets *)
(* ===================================================================== *)

Lemma str_forall_append (P : ascii -> bool) (s1 s2 : string) :
  Py.str_forall P (s1 +:+ s2) = Py.str_forall P s1 && Py.str_forall P s2.
Proof.
  induction s1 as [|c s1 IH]; [reflexivity|].
  change (String c s1 +:+ s2) with (String c (s1 +:+ s2)).
  simpl. rewrite IH. apply andb_assoc.
Qed.

Lemma append_nonempty (s : string) (c : ascii) :
  s +:+ String c EmptyString <> EmptyString.
Proof. destruct s; discriminate. Qed.

(** The tokens of [split] are not empty and have no white space: they
    are made of the other characters of the text. *)
Lemma split_go_tokens (P : ascii -> bool) (s : string) :
  forall cur : string,
    Py.str_forall (fun c => Py.isspace c || P c) s = true ->
    Py.str_forall P cur = true ->
    forall w, w ∈ Py.split_go cur s ->
              w <> EmptyString /\ Py.str_forall P w = true.
Proof.
  induction s as [|c s IH]; intros cur Hs Hcur w Hw; simpl in Hw.
  - destruct cur; [apply elem_of_nil in Hw; destruct Hw|].
    apply list_elem_of_singleton in Hw. subst w. split; [discriminate | exact Hcur].
  - simpl in Hs. apply andb_true_iff in Hs as [Hc Hs].
    destruct (Py.isspace c) eqn:Hspace.
    + apply elem_of_app in Hw as [Hw|Hw].
      * destruct cur; [apply elem_of_nil in Hw; destruct Hw|].
        apply list_elem_of_singleton in Hw. subst w.
        split; [discriminate | exact Hcur].
      * apply (IH EmptyString Hs eq_refl w Hw).
    + apply (IH (cur +:+ String c EmptyString) Hs); [|exact Hw].
      rewrite str_forall_append, Hcur. simpl. simpl in Hc. rewrite Hc. reflexivity.
Qed.

Lemma str_forall_filter (P : ascii -> bool) (s : string) :
  Py.str_forall P (Py.str_filter P s) = true.
Proof.
  induction s as [|c s IH]; [reflexivity|]. simpl.
  destruct (P c) eqn:Hc; [simpl; rewrite Hc; exact IH | exact IH].
Qed.

Lemma str_forall_ext (P Q : ascii -> bool) (s : string) :
  (forall c, P c = Q c) -> Py.str_forall P s = Py.str_forall Q s.
Proof.
  intros Hext. induction s as [|c s IH]; [reflexivity|].
  simpl. rewrite Hext, IH. reflexivity.
Qed.

Lemma split_tokens_are_terms (text : string) (w : string) :
  w ∈ Py.split (Py.re_sub_non_alnum_space text) -> Terms.is_term w.
Proof.
  unfold Py.split, Py.re_sub_non_alnum_space. intros Hw.
  apply (split_go_tokens Terms.term_char (Py.str_filter Py.keep_char text)
           EmptyString); [|reflexivity | exact Hw].
  rewrite <- (str_forall_filter Py.keep_char text).
  apply str_forall_ext. intros c. unfold Py.keep_char, Terms.term_char.
  destruct (Py.is_lower_az c), (Py.is_digit c), (Py.isspace c); reflexivity.
Qed.

Lemma contraction_parts_are_terms :
  Forall (fun kv : string * list string =>
            Forall (fun w => w <> EmptyString
                             /\ Py.str_forall Terms.term_char w = true) (snd kv))
         NLTK.contractions2.
Proof.
  repeat constructor; discriminate.
Qed.

Lemma dict_get_Some_elem {K V : Type} `{EqDecision K}
      (d : Py.Dict.t K V) (k : K) (v : V) :
  Py.Dict.get d k = Some v -> (k, v) ∈ d.
Proof.
  induction d as [|[k0 v0] d IH]; simpl; [discriminate|].
  destruct (decide (k0 = k)) as [->|_].
  - intros [= ->]. apply list_elem_of_here.
  - intros Hget. apply list_elem_of_further, IH, Hget.
Qed.

Lemma word_tokenize_terms (text : string) (w : string) :
  w ∈ NLTK.word_tokenize (Py.re_sub_non_alnum_space text) -> Terms.is_term w.
Proof.
  unfold NLTK.word_tokenize. rewrite list_elem_of_In, in_flat_map.
  intros (token & Htoken & Hw). apply list_elem_of_In in Htoken, Hw.
  unfold NLTK.split_contraction in Hw.
  destruct (Py.Dict.get NLTK.contractions2 token) as [parts|] eqn:Hget.
  - apply dict_get_Some_elem in Hget.
    pose proof contraction_parts_are_terms as Hall.
    rewrite Forall_forall in Hall. specialize (Hall _ Hget). simpl in Hall.
    rewrite Forall_forall in Hall. exact (Hall w Hw).
  - apply list_elem_of_singleton in Hw. subst w.
    apply (split_tokens_are_terms text), Htoken.
Qed.

(** X8. Every term that [_preprocess_text] produces is a non-empty
    string of the characters a-z and 0-9 and is no stopword. *)
Theorem preprocess_text_terms (db : database) (text w : string) :
  w ∈ Indexer._preprocess_text (Indexer.init db) text ->
  w <> EmptyString
  /\ Py.str_forall Terms.term_char w = true
  /\ w ∉ NLTK.stopwords_english.
Proof.
  unfold Indexer._preprocess_text. intros Hw.
  apply list_elem_of_filter in Hw as [Hstop Hw].
  destruct (word_tokenize_terms _ _ Hw) as [Hne Hchars].
  split; [exact Hne|]. split; [exact Hchars|].
  intros Hin. apply Hstop. unfold Indexer.init. cbn [Indexer.stop_words].
  apply elem_of_list_to_set, Hin.
Qed.

Lemma preprocess_text_terms_witness :
  ("3rd" : string) <> EmptyString
  /\ Py.str_forall Terms.term_char "3rd" = true
  /\ "3rd" ∉ NLTK.stopwords_english.
Proof.
  apply (preprocess_text_terms Scenario.empty_store "The 3rd, C-A-T!" "3rd").
  apply (bool_decide_unpack _). vm_compute. exact I.
Defined.









(** A short text with white space around it. *)
Example title_snippet_short :
  Searcher.title_snippet "  cats hate water  " = "cats hate water...".
Proof. vm_compute. reflexivity. Qed.

(* ===================================================================== *)
(** * What a crawl does to the store *)
(* ===================================================================== *)

Section CrawlStore.
Variable w : Crawler.world.

(** The [try] block either changes nothing, because the request raised,
    the status was not 200 or the parser raised, or it stores the page,
    counts it and enqueues its links. *)
Lemma try_block_spec (now : nat) (c : Crawler.t) (url : string) (crawled : Z) :
  (Crawler.try_block w now c url crawled = (c, crawled)
   /\ forall response soup,
        Crawler.requests_get w now url = Some response ->
        Crawler.status_code response = 200 ->
        Crawler.parse_html w (Crawler.text response) = Some soup -> False)
  \/ exists response soup,
       Crawler.requests_get w now url = Some response
       /\ Crawler.status_code response = 200
       /\ Crawler.parse_html w (Crawler.text response) = Some soup
       /\ Crawler.try_block w now c url crawled
          = (Crawler.with_queue
               (Crawler._store_page c url (Crawler.text response)
                  (Crawler.get_text soup))
               (Crawler.enqueue_links w url
                  (Crawler.queue
                     (Crawler._store_page c url (Crawler.text response)
                        (Crawler.get_text soup)))
                  (Crawler.hrefs soup)),
             crawled + 1).
Proof.
  unfold Crawler.try_block.
  destruct (Crawler.requests_get w now url) as [response|];
    [|left; split; [reflexivity | discriminate]].
  destruct (Z.eqb_spec (Crawler.status_code response) 200) as [Hok|Hbad];
    simpl negb; cbv iota.
  - destruct (Crawler.parse_html w (Crawler.text response)) as [soup|] eqn:Hparse.
    + right. exists response, soup. auto.
    + left. split; [reflexivity|]. intros r s [= <-] _ Hs. congruence.
  - left. split; [reflexivity|]. intros r s [= <-] Hs _. congruence.
Qed.

(** The three ways through one iteration. *)
Lemma iteration_spec (st : Crawler.loop_state) (url : string)
      (rest : list string) :
  (url ∈ Crawler.visited_urls (Crawler.self st)
   /\ Crawler.iteration w st url rest
      = Crawler.Loop (Crawler.with_queue (Crawler.self st) rest)
          (Crawler.pages_crawled st) (S (Crawler.clock st)))
  \/ ((url ∉ Crawler.visited_urls (Crawler.self st))
      /\ exists checked,
           Crawler._can_fetch w (Crawler.clock st)
             (Crawler.with_queue (Crawler.self st) rest) url = (false, checked)
           /\ Crawler.iteration w st url rest
              = Crawler.Loop checked (Crawler.pages_crawled st)
                  (S (Crawler.clock st)))
  \/ ((url ∉ Crawler.visited_urls (Crawler.self st))
      /\ exists checked,
           Crawler._can_fetch w (Crawler.clock st)
             (Crawler.with_queue (Crawler.self st) rest) url = (true, checked)
           /\ Crawler.iteration w st url rest
              = Crawler.Loop
                  (fst (Crawler.try_block w (Crawler.clock st)
                          (Crawler.with_visited checked
                             ({[url]} ∪ Crawler.visited_urls checked))
                          url (Crawler.pages_crawled st)))
                  (snd (Crawler.try_block w (Crawler.clock st)
                          (Crawler.with_visited checked
                             ({[url]} ∪ Crawler.visited_urls checked))
                          url (Crawler.pages_crawled st)))
                  (S (Crawler.clock st))).
Proof.
  unfold Crawler.iteration. cbv zeta. simpl Crawler.visited_urls.
  destruct (decide (url ∈ Crawler.visited_urls (Crawler.self st))) as [Hin|Hnin].
  - left. rewrite bool_decide_eq_true_2 by exact Hin. auto.
  - right. rewrite bool_decide_eq_false_2 by exact Hnin.
    destruct (Crawler._can_fetch w (Crawler.clock st)
                (Crawler.with_queue (Crawler.self st) rest) url)
      as [[|] checked] eqn:Hcf; simpl negb; cbv iota.
    + right. split; [exact Hnin|]. exists checked. split; [reflexivity|].
      destruct (Crawler.try_block w (Crawler.clock st) _ url
                  (Crawler.pages_crawled st)); reflexivity.
    + left. split; [exact Hnin|]. exists checked. auto.
Qed.

Lemma insert_page_urls (db db' : database) (url html text : string) :
  insert_page db url html text = Some db' ->
  (url ∉ map page_url (pages db))
  /\ exists p, page_url p = url /\ pages db' = pages db ++ [p].
Proof.
  unfold insert_page, has_url.
  destruct (existsb _ (pages db)) eqn:Hhas; [discriminate|].
  intros [= <-].
  split; [|exists (Page (seq db + 1) url html text); split; reflexivity].
  intros Hin. apply list_elem_of_fmap in Hin as (p & -> & Hp).
  apply list_elem_of_In in Hp.
  assert (Htrue : existsb (fun q => (page_url q =? page_url p)%string) (pages db)
                  = true).
  { apply existsb_exists. exists p. split; [exact Hp | apply String.eqb_refl]. }
  congruence.
Qed.

(** A property of the table that every insert keeps is kept by the
    whole loop: the table changes through [_store_page] only. *)
Lemma crawl_loop_store (max_pages : Z) (P : database -> Prop) :
  (forall db db' url html text,
      P db -> insert_page db url html text = Some db' -> P db') ->
  forall fuel st final,
    P (Crawler.conn (Crawler.self st)) ->
    Crawler.crawl_loop w max_pages fuel st = Some final ->
    P (Crawler.conn (Crawler.self final)).
Proof.
  intros Hinsert fuel st final Hst Hrun.
  assert (Hkeep : forall st st' : Crawler.loop_state,
             P (Crawler.conn (Crawler.self st)) ->
             Crawler.crawl_step w max_pages st = Some st' ->
             P (Crawler.conn (Crawler.self st'))).
  { clear st final Hst Hrun. intros st st' Hst Hstep.
    destruct (crawl_step_Some _ _ _ _ Hstep) as (url & rest & _ & _ & ->).
    destruct (iteration_spec st url rest)
      as [[_ ->]|[(_ & checked & Hcf & ->)|(_ & checked & Hcf & ->)]]; simpl.
    - exact Hst.
    - destruct (can_fetch_frame _ _ _ _ _ _ Hcf) as (-> & _). exact Hst.
    - destruct (can_fetch_frame _ _ _ _ _ _ Hcf) as (Hconn & _). simpl in Hconn.
      destruct (try_block_spec (Crawler.clock st)
                  (Crawler.with_visited checked
                     ({[url]} ∪ Crawler.visited_urls checked))
                  url (Crawler.pages_crawled st))
        as [[-> _]|(response & soup & _ & _ & _ & ->)]; simpl.
      + rewrite Hconn. exact Hst.
      + unfold Crawler._store_page. simpl Crawler.conn. rewrite Hconn.
        destruct (insert_page (Crawler.conn (Crawler.self st)) url
                    (Crawler.text response) (Crawler.get_text soup))
          as [db'|] eqn:Hins; simpl;
          [eapply Hinsert; eauto | rewrite Hconn; exact Hst]. }
  destruct (crawl_loop_invariant w max_pages
              (fun st => P (Crawler.conn (Crawler.self st))) Hkeep
              fuel st final Hst Hrun) as [Hfinal _].
  exact Hfinal.
Qed.
End CrawlStore.

(** X10. A crawl never makes two rows with the same URL: if the URLs of
    the store are pairwise different before [crawl], they are so after
    it, however often a URL is discovered or given as a seed. *)
Theorem crawl_keeps_urls_unique
  (w : Crawler.world) (db : database) (seed_urls : list string)
  (max_pages : Z) (fuel : nat) (final : Crawler.loop_state) :
  NoDup (map page_url (pages db)) ->
  Crawler.crawl w fuel (Crawler.init db seed_urls) max_pages = Some final ->
  NoDup (map page_url (pages (Crawler.conn (Crawler.self final)))).
Proof.
  intros Hnd Hrun.
  apply (crawl_loop_store w max_pages
           (fun d => NoDup (map page_url (pages d)))) with (3 := Hrun);
    [|exact Hnd].
  intros d d' url html text Hd Hins.
  apply insert_page_urls in Hins as (Hfresh & p & Hp & ->).
  rewrite map_app. simpl. rewrite Hp.
  apply NoDup_app. split; [exact Hd|]. split; [|apply NoDup_singleton].
  intros x Hx Hx'. apply list_elem_of_singleton in Hx'. subst x. auto.
Qed.

Lemma crawl_keeps_urls_unique_witness :
  exists final,
    Crawler.crawl Scenario.linked_web 10
      (Crawler.init Scenario.earlier_run ["http://a.test/"; "http://a.test/"]) 5
    = Some final
    /\ NoDup (map page_url (pages (Crawler.conn (Crawler.self final)))).
Proof.
  destruct (Crawler.crawl Scenario.linked_web 10
              (Crawler.init Scenario.earlier_run
                 ["http://a.test/"; "http://a.test/"]) 5)
    as [final|] eqn:Hrun; [|vm_compute in Hrun; discriminate Hrun].
  exists final. split; [reflexivity|].
  apply (crawl_keeps_urls_unique Scenario.linked_web Scenario.earlier_run
           ["http://a.test/"; "http://a.test/"] 5 10 final); [|exact Hrun].
  apply (bool_decide_unpack _). vm_compute. exact I.
Defined.

(** X11. A crawl only appends: the rows that the store had before
    [crawl] are still there afterwards, unchanged and in front of the
    rows that the crawl added. *)
Theorem crawl_only_appends
  (w : Crawler.world) (db : database) (seed_urls : list string)
  (max_pages : Z) (fuel : nat) (final : Crawler.loop_state) :
  Crawler.crawl w fuel (Crawler.init db seed_urls) max_pages = Some final ->
  exists added, pages (Crawler.conn (Crawler.self final)) = pages db ++ added.
Proof.
  intros Hrun.
  apply (crawl_loop_store w max_pages
           (fun d => exists added, pages d = pages db ++ added))
    with (3 := Hrun).
  - intros d d' url html text (added & Hd) Hins.
    apply insert_page_urls in Hins as (_ & p & _ & ->).
    exists (added ++ [p]). rewrite Hd, app_assoc. reflexivity.
  - exists []. simpl. rewrite app_nil_r. reflexivity.
Qed.

Lemma crawl_only_appends_witness :
  match Crawler.crawl Scenario.linked_web 10
          (Crawler.init Scenario.earlier_run ["https://b.test/"]) 5 with
  | Some final =>
      exists added,
        pages (Crawler.conn (Crawler.self final))
        = pages Scenario.earlier_run ++ added
  | None => True
  end.
Proof.
  destruct (Crawler.crawl Scenario.linked_web 10
              (Crawler.init Scenario.earlier_run ["https://b.test/"]) 5)
    as [final|] eqn:Hrun; [|exact I].
  apply (crawl_only_appends Scenario.linked_web Scenario.earlier_run
           ["https://b.test/"] 5 10 final Hrun).
Defined.
